(** * Dense automatic differentiation: the [Evaluation] class stamped out by
    [bin/genEvalSpecializations.py]

    The script renders one Jinja2 template ([specializationTemplate]) once
    with [numDerivs = -1], which gives the generic, loop based class
    [Evaluation<ValueT, numDerivs>], and once per [numDerivs = 1 .. maxDerivs],
    which gives the hand-unrolled specialisations [Evaluation<ValueT, N>].

    This development embeds
    - the scalar type [ValueT] as a type class (the C++ template parameter),
      with IEEE binary64 ([double]) as the instance used for concrete runs;
    - the member functions of the class, once, with the template's
      [{% if numDerivs < 0 %} ... {% else %} ... {% endif %}] kept as a case
      distinction on the variant;
    - the generator's main program as a state-passing function over a file
      system. *)

From Stdlib Require Import ZArith Floats Ascii.
From stdpp Require Import base list strings gmap pretty.

Set Default Proof Using "Type".
Local Open Scope Z_scope.
Local Open Scope nat_scope.

(** ** The scalar type [ValueT] *)

(** Everything the class asks of [ValueT]: the literals [0.0] and [1.0] (a
    value-initialised [ValueT()] is [0.0] too), the arithmetic operators and
    the comparisons.  No law is assumed here, so two results are equal only
    if they were computed by the same operations in the same order. *)
Class Scalar (V : Type) := {
  Vzero : V;
  Vone : V;
  Vadd : V → V → V;
  Vsub : V → V → V;
  Vmul : V → V → V;
  Vdiv : V → V → V;
  Vneg : V → V;
  Veqb : V → V → bool;
  Vltb : V → V → bool;
  Vleb : V → V → bool
}.

(** [a != b], [a > b] and [a >= b] as the built-in arithmetic types have
    them. *)
Definition Vneb `{Scalar V} (a b : V) : bool := negb (Veqb a b).
Definition Vgtb `{Scalar V} (a b : V) : bool := Vltb b a.
Definition Vgeb `{Scalar V} (a b : V) : bool := Vleb b a.

#[export] Instance scalar_inhabited `{Scalar V} : Inhabited V := populate Vzero.

(** [ValueT = double]. *)
#[export] Instance double_scalar : Scalar float := {|
  Vzero := 0%float;
  Vone := 1%float;
  Vadd := PrimFloat.add;
  Vsub := PrimFloat.sub;
  Vmul := PrimFloat.mul;
  Vdiv := PrimFloat.div;
  Vneg := PrimFloat.opp;
  Veqb := PrimFloat.eqb;
  Vltb := PrimFloat.ltb;
  Vleb := PrimFloat.leb
|}.

(** ** Control structure of the two variants *)

(** Python's [range(a, b)]. *)
Definition range (a b : nat) : list nat := seq a (b - a).

(** [for (int i = lo; i < hi; ++i) { body }] on a state [S]: the counter
    is tested before every iteration; [fuel] bounds the number of tests. *)
Fixpoint for_loop_from {S : Type} (fuel i hi : nat) (body : nat → S → S) (s : S) : S :=
  match fuel with
  | O => s
  | Datatypes.S fuel' =>
      if decide (i < hi) then for_loop_from fuel' (i + 1) hi body (body i s) else s
  end.

Definition for_loop {S : Type} (lo hi : nat) (body : nat → S → S) (s : S) : S :=
  for_loop_from (hi - lo) lo hi body s.

(** [{% for i in range(a, b) %} stmt {% endfor %}]: the rendered text is
    the statement repeated with the literal index, executed in sequence. *)
Definition unrolled {S : Type} (indices : list nat) (stmt : nat → S → S) (s : S) : S :=
  foldl (λ s i, stmt i s) s indices.

(** Which rendering of the template a class comes from. *)
Inductive variant :=
  | Generic (numDerivs : nat)         (* render(numDerivs=-1); Evaluation<ValueT, numDerivs> *)
  | Specialization (numDerivs : nat). (* render(numDerivs=N);  Evaluation<ValueT, N> *)

(** A loop of the class body: [{% if numDerivs < 0 %}] a C++ [for] over
    [lo .. hi), [{% else %}] the statement unrolled over a Python range. *)
Definition loop {S : Type} (v : variant) (lo hi : nat) (indices : list nat)
    (body : nat → S → S) : S → S :=
  match v with
  | Generic _ => for_loop lo hi body
  | Specialization _ => unrolled indices body
  end.

(** The result of a member function that starts with an [assert]. *)
Inductive checked (A : Type) :=
  | Returns (a : A)
  | AssertionFailure.
Arguments Returns {A} a.
Arguments AssertionFailure {A}.

(** ** The class [Evaluation] *)

(** Member functions that modify [*this] take the object before the call
    and return the object after it.  A scalar argument
    ([const RhsValueType&], with [RhsValueType = ValueT]) is taken by value
    where the function reads it once, before it stores anything or in its
    only statement; [operator*=], which reads it in every statement, takes
    it as the reference it is ([scalar_operand]).
    [Valgrind::CheckDefined], [print] and [operator<<] do not change an
    Evaluation and are left out. *)

Section Evaluation.
Context {V : Type} `{Scalar V}.

(** What a default-initialised [std::array<ValueT, length_>] holds before
    its elements are assigned: an indeterminate value per slot. *)
Variable indeterminate : nat → V.

(** [std::array<ValueT, length_> data_]; slot 0 is the value, slots
    [1 .. size] are the derivatives. *)
Record Evaluation := mkEvaluation { data_ : list V }.

Definition size (v : variant) : nat :=
  match v with Generic numDerivs | Specialization numDerivs => numDerivs end.
(** The template variable [numDerivs] of a specialisation, which is its [size]. *)
Definition numDerivs := size.
Definition length_ (v : variant) : nat := size v + 1.
Definition valuepos_ : nat := 0.
Definition dstart_ : nat := 1.
Definition dend_ (v : variant) : nat := length_ v.

(** The class invariant carried by the type [std::array<ValueT, length_>]. *)
Definition well_formed (v : variant) (e : Evaluation) : Prop :=
  length (data_ e) = length_ v.

(** [data_[i]] read, and the assignment [data_[i] = x]. *)
Definition at_ (e : Evaluation) (i : nat) : V := data_ e !!! i.
Definition store (i : nat) (x : V) (e : Evaluation) : Evaluation :=
  {| data_ := <[i := x]> (data_ e) |}.

(** The argument [const Evaluation& other] of a member function that
    modifies [*this]: the object itself ([x *= x]) or another one. *)
Inductive operand :=
  | This
  | Obj (e : Evaluation).
Definition deref (this : Evaluation) (other : operand) : Evaluation :=
  match other with This => this | Obj e => e end.
(** What [other.data_[i]] reads while slot [i] of [*this] holds [x]. *)
Definition operand_at (other : operand) (i : nat) (x : V) : V :=
  match other with This => x | Obj e => at_ e i end.

(** Storage of an object whose constructor has no initialiser for [data_]. *)
Definition uninitialized (v : variant) : Evaluation :=
  {| data_ := indeterminate <$> seq 0 (length_ v) |}.

(** [const ValueType& value() const] and [setValue]. *)
Definition value (this : Evaluation) : V := at_ this valuepos_.
Definition setValue (val : V) (this : Evaluation) : Evaluation :=
  store valuepos_ val this.

(** [derivative(varIdx)] and [setDerivative(varIdx, derVal)]. *)
Definition derivative (v : variant) (this : Evaluation) (varIdx : Z) : checked V :=
  if bool_decide (0 ≤ varIdx ∧ varIdx < Z.of_nat (size v))%Z
  then Returns (at_ this (Z.to_nat (Z.of_nat dstart_ + varIdx)))
  else AssertionFailure.
Definition setDerivative (v : variant) (varIdx : Z) (derVal : V)
    (this : Evaluation) : checked Evaluation :=
  if bool_decide (0 ≤ varIdx ∧ varIdx < Z.of_nat (size v))%Z
  then Returns (store (Z.to_nat (Z.of_nat dstart_ + varIdx)) derVal this)
  else AssertionFailure.

(** [Evaluation() : data_() {}]: the array is value-initialised. *)
Definition Evaluation_default (v : variant) : Evaluation :=
  {| data_ := replicate (length_ v) Vzero |}.

(** [Evaluation(const Evaluation& other)]. *)
Definition Evaluation_copy (v : variant) (other : Evaluation) : Evaluation :=
  match v with
  | Generic _ => {| data_ := data_ other |}
  | Specialization numDerivs =>
      unrolled (range 0 (numDerivs + 1))
        (λ i this, store i (at_ other i) this) (uninitialized v)
  end.

(** [void clearDerivatives()]. *)
Definition clearDerivatives (v : variant) (this : Evaluation) : Evaluation :=
  loop v dstart_ (dend_ v) (range 1 (numDerivs v + 1))
    (λ i this, store i Vzero this) this.

(** [Evaluation(const RhsValueType& c)]. *)
Definition Evaluation_constant (v : variant) (c : V) : Evaluation :=
  clearDerivatives v (setValue c (uninitialized v)).

(** [Evaluation(const RhsValueType& c, int varPos)]. *)
Definition Evaluation_variable (v : variant) (c : V) (varPos : Z) : checked Evaluation :=
  if bool_decide (0 ≤ varPos ∧ varPos < Z.of_nat (size v))%Z
  then
    let this := clearDerivatives v (setValue c (uninitialized v)) in
    Returns (store (Z.to_nat (varPos + Z.of_nat dstart_)) Vone this)
  else AssertionFailure.

Definition createVariable (v : variant) (value : V) (varPos : Z) : checked Evaluation :=
  Evaluation_variable v value varPos.
Definition createConstant (v : variant) (value : V) : Evaluation :=
  Evaluation_constant v value.

(** [void copyDerivatives(const Evaluation& other)]. *)
Definition copyDerivatives (v : variant) (other : operand) (this : Evaluation) : Evaluation :=
  loop v dstart_ (dend_ v) (range 1 (numDerivs v + 1))
    (λ i this, store i (at_ (deref this other) i) this) this.

(** [operator+=(const Evaluation&)] and [operator+=(const RhsValueType&)]. *)
Definition add_assign (v : variant) (other : operand) (this : Evaluation) : Evaluation :=
  loop v 0 (length_ v) (range 0 (numDerivs v + 1))
    (λ i this, store i (Vadd (at_ this i) (at_ (deref this other) i)) this) this.
Definition add_assign_scalar (other : V) (this : Evaluation) : Evaluation :=
  store valuepos_ (Vadd (at_ this valuepos_) other) this.

(** [operator-=(const Evaluation&)] and [operator-=(const RhsValueType&)]. *)
Definition sub_assign (v : variant) (other : operand) (this : Evaluation) : Evaluation :=
  loop v 0 (length_ v) (range 0 (numDerivs v + 1))
    (λ i this, store i (Vsub (at_ this i) (at_ (deref this other) i)) this) this.
Definition sub_assign_scalar (other : V) (this : Evaluation) : Evaluation :=
  store valuepos_ (Vsub (at_ this valuepos_) other) this.

(** [operator*=(const Evaluation&)]: [u] and [v] are read first, then the
    value slot is overwritten, then the derivative slots. *)
Definition mul_assign (v : variant) (other : operand) (this : Evaluation) : Evaluation :=
  let u := value this in
  let v' := value (deref this other) in
  let this := store valuepos_ (Vmul (at_ this valuepos_) v') this in
  loop v dstart_ (dend_ v) (range 1 (numDerivs v + 1))
    (λ i this,
       store i (Vadd (Vmul (at_ this i) v') (Vmul (at_ (deref this other) i) u)) this)
    this.

(** The argument [const RhsValueType& other] of [operator*=], which the
    function reads again in every statement: a reference to a scalar object
    of its own, to slot 0 of [*this] (what [value()] returns, as in
    [x *= x.value()]), or to a derivative slot of [*this] (what
    [derivative(varIdx)] returns, as in [x *= x.derivative(varIdx)]). *)
Inductive scalar_operand :=
  | Separate (c : V)
  | ValueOfThis
  | DerivativeOfThis (varIdx : nat).
Definition scalar_read (this : Evaluation) (other : scalar_operand) : V :=
  match other with
  | Separate c => c
  | ValueOfThis => at_ this valuepos_
  | DerivativeOfThis varIdx => at_ this (dstart_ + varIdx)
  end.

(** [operator*=(const RhsValueType&)], reading [other] through the
    reference in every statement [data_[i] *= other]. *)
Definition mul_assign_scalar_ref (v : variant) (other : scalar_operand)
    (this : Evaluation) : Evaluation :=
  loop v 0 (length_ v) (range 0 (numDerivs v + 1))
    (λ i this, store i (Vmul (at_ this i) (scalar_read this other)) this) this.

(** [operator*=(const RhsValueType&)] called with a scalar that is no slot
    of [*this]: the object modified is a fresh copy in the binary operators
    below, and a scalar object of its own is the case [Separate]. *)
Definition mul_assign_scalar (v : variant) (other : V) (this : Evaluation) : Evaluation :=
  mul_assign_scalar_ref v (Separate other) this.

(** [operator/=(const Evaluation&)]. *)
Definition div_assign (v : variant) (other : operand) (this : Evaluation) : Evaluation :=
  let v_vv := Vdiv Vone (value (deref this other)) in
  let u_vv := Vmul (Vmul (value this) v_vv) v_vv in
  let this := store valuepos_ (Vmul (at_ this valuepos_) v_vv) this in
  loop v dstart_ (dend_ v) (range 1 (numDerivs v + 1))
    (λ i this,
       store i (Vsub (Vmul (at_ this i) v_vv) (Vmul (at_ (deref this other) i) u_vv)) this)
    this.

(** [operator/=(const RhsValueType&)]. *)
Definition div_assign_scalar (v : variant) (other : V) (this : Evaluation) : Evaluation :=
  let tmp := Vdiv Vone other in
  loop v 0 (length_ v) (range 0 (numDerivs v + 1))
    (λ i this, store i (Vmul (at_ this i) tmp) this) this.

(** [static Evaluation divide(const RhsValueType& a, const Evaluation& b)]. *)
Definition divide (v : variant) (a : V) (b : Evaluation) : Evaluation :=
  let result := Evaluation_default v in
  let tmp := Vdiv Vone (value b) in
  let result := setValue (Vmul a tmp) result in
  let df_dg := Vmul (Vneg (value result)) tmp in
  loop v dstart_ (dend_ v) (range 1 (numDerivs v + 1))
    (λ i result, store i (Vmul df_dg (at_ b i)) result) result.

(** The binary member operators: copy [*this], then the compound
    assignment on the copy. *)
Definition op_add (v : variant) (this other : Evaluation) : Evaluation :=
  add_assign v (Obj other) (Evaluation_copy v this).
Definition op_add_scalar (v : variant) (this : Evaluation) (other : V) : Evaluation :=
  add_assign_scalar other (Evaluation_copy v this).
Definition op_sub (v : variant) (this other : Evaluation) : Evaluation :=
  sub_assign v (Obj other) (Evaluation_copy v this).
Definition op_sub_scalar (v : variant) (this : Evaluation) (other : V) : Evaluation :=
  sub_assign_scalar other (Evaluation_copy v this).

(** [Evaluation operator-() const]. *)
Definition op_neg (v : variant) (this : Evaluation) : Evaluation :=
  loop v 0 (length_ v) (range 0 (numDerivs v + 1))
    (λ i result, store i (Vneg (at_ this i)) result) (Evaluation_default v).

Definition op_mul (v : variant) (this other : Evaluation) : Evaluation :=
  mul_assign v (Obj other) (Evaluation_copy v this).
Definition op_mul_scalar (v : variant) (this : Evaluation) (other : V) : Evaluation :=
  mul_assign_scalar v other (Evaluation_copy v this).
Definition op_div (v : variant) (this other : Evaluation) : Evaluation :=
  div_assign v (Obj other) (Evaluation_copy v this).
Definition op_div_scalar (v : variant) (this : Evaluation) (other : V) : Evaluation :=
  div_assign_scalar v other (Evaluation_copy v this).

(** [operator=(const RhsValueType&)] and [operator=(const Evaluation&)]. *)
Definition assign_scalar (v : variant) (other : V) (this : Evaluation) : Evaluation :=
  clearDerivatives v (setValue other this).
Definition assign (v : variant) (other : operand) (this : Evaluation) : Evaluation :=
  loop v 0 (length_ v) (range 0 (numDerivs v + 1))
    (λ i this, store i (at_ (deref this other) i) this) this.

(** [bool operator==(const RhsValueType&) const]. *)
Definition op_eq_scalar (this : Evaluation) (other : V) : bool :=
  Veqb (value this) other.

(** [bool operator==(const Evaluation&) const]: the loop leaves with
    [false] at the first slot that differs. *)
Fixpoint op_eq_from (fuel idx : nat) (v : variant) (this other : Evaluation) : bool :=
  match fuel with
  | O => true
  | S fuel' =>
      if decide (idx < length_ v) then
        if Vneb (at_ this idx) (at_ other idx) then false
        else op_eq_from fuel' (idx + 1) v this other
      else true
  end.
Definition op_eq (v : variant) (this other : Evaluation) : bool :=
  op_eq_from (length_ v) 0 v this other.
Definition op_ne (v : variant) (this other : Evaluation) : bool :=
  negb (op_eq v this other).

(** The ordering operators, against a scalar and against an Evaluation. *)
Definition op_gt_scalar (this : Evaluation) (other : V) : bool := Vgtb (value this) other.
Definition op_gt (this other : Evaluation) : bool := Vgtb (value this) (value other).
Definition op_lt_scalar (this : Evaluation) (other : V) : bool := Vltb (value this) other.
Definition op_lt (this other : Evaluation) : bool := Vltb (value this) (value other).
Definition op_ge_scalar (this : Evaluation) (other : V) : bool := Vgeb (value this) other.
Definition op_ge (this other : Evaluation) : bool := Vgeb (value this) (value other).
Definition op_le_scalar (this : Evaluation) (other : V) : bool := Vleb (value this) other.
Definition op_le (this other : Evaluation) : bool := Vleb (value this) (value other).

(** The free operators with the scalar on the left.  They are declared
    once, in the generic header, for every [numVars]; the class they
    name is the specialisation where one exists. *)
Definition scalar_lt (a : V) (b : Evaluation) : bool := op_gt_scalar b a.
Definition scalar_gt (a : V) (b : Evaluation) : bool := op_lt_scalar b a.
Definition scalar_le (a : V) (b : Evaluation) : bool := op_ge_scalar b a.
Definition scalar_ge (a : V) (b : Evaluation) : bool := op_le_scalar b a.
Definition scalar_ne (a : V) (b : Evaluation) : bool := Vneb a (value b).

Definition scalar_add (v : variant) (a : V) (b : Evaluation) : Evaluation :=
  add_assign_scalar a (Evaluation_copy v b).
Definition scalar_sub (v : variant) (a : V) (b : Evaluation) : Evaluation :=
  sub_assign v (Obj b) (Evaluation_constant v a).
Definition scalar_div (v : variant) (a : V) (b : Evaluation) : Evaluation :=
  divide v a b.
Definition scalar_mul (v : variant) (a : V) (b : Evaluation) : Evaluation :=
  mul_assign_scalar v a (Evaluation_copy v b).

(** [void print(std::ostream& os) const]: the stream is the list of items
    written to it so far, [show] is [operator<<] of [ValueT]; the loop is
    the same text in both variants and goes through [derivative], assertion
    included. *)
Definition Evaluation_print (show : V → string) (v : variant) (this : Evaluation)
    (os : list string) : checked (list string) :=
  let os := os ++ ["v: "; show (value this); " / d:"] in
  for_loop 0 (size v)
    (λ varIdx os,
       match os with
       | Returns os =>
           match derivative v this (Z.of_nat varIdx) with
           | Returns d => Returns (os ++ [" "; show d])
           | AssertionFailure => AssertionFailure
           end
       | AssertionFailure => AssertionFailure
       end)
    (Returns os).
End Evaluation.

Arguments Evaluation V : clear implicits.
Arguments operand V : clear implicits.
Arguments scalar_operand V : clear implicits.
Arguments mkEvaluation {V} data_.

(** ** Laws of a scalar type *)

(** How [==] relates to the ordering of one scalar type: values that
    compare equal are ordered neither way strictly and both ways weakly.
    The built-in arithmetic types satisfy this (for IEEE numbers, a NaN
    never compares equal). *)
Class ScalarOrder (V : Type) `{Scalar V} : Prop := {
  Veqb_leb : ∀ x y : V, Veqb x y = true → Vleb x y = true;
  Veqb_geb : ∀ x y : V, Veqb x y = true → Vleb y x = true;
  Veqb_ltb : ∀ x y : V, Veqb x y = true → Vltb x y = false;
  Veqb_gtb : ∀ x y : V, Veqb x y = true → Vltb y x = false
}.

(** [x] and [y] are the same scalar, or compare equal with [==]. *)
Definition Vsame {V : Type} `{Scalar V} (x y : V) : Prop :=
  x = y ∨ Veqb x y = true.

(** Subtracting from [0.0] negates.  In a field the two sides are the
    same element; for IEEE numbers they are the same number except that
    [0.0 - 0.0] is [+0.0] and [-(+0.0)] is [-0.0], which compare equal. *)
Class ScalarNegation (V : Type) `{Scalar V} : Prop :=
  Vsub_zero : ∀ x : V, Vsame (Vsub Vzero x) (Vneg x).

(** ** The generator script *)

Section Generator.
(** Python's [int(s)]; [None] stands for the [ValueError] it raises. *)
Variable python_int : string → option Z.
(** [os.path.basename]. *)
Variable basename : string → string.
(** [jinja2.Template(specializationTemplate).render(numDerivs=n, scriptName=s)]:
    the text of the class template is rendered by the library, as a
    function of the two variables the script passes. *)
Variable render_specialization : Z → string → string.
(** Whether [open(fileName, "w")] succeeds where the script runs: the
    directory of the file exists (the script creates none) and the file may
    be created or truncated there. *)
Variable can_open : string → bool.

(** What a run of the script has and touches: the global list
    [fileNames], the lines printed, and the files below the working
    directory (path to content). *)
Record process := mkProcess {
  fileNames : list string;
  stdout : list string;
  files : gmap string string
}.

Definition print (line : string) (st : process) : process :=
  {| fileNames := fileNames st; stdout := stdout st ++ [line]; files := files st |}.

(** [fileNames.append(fileName)]. *)
Definition fileNames_append (fileName : string) (st : process) : process :=
  {| fileNames := fileNames st ++ [fileName]; stdout := stdout st; files := files st |}.

(** How a run ends: it reaches the end of the script, or an exception
    nothing catches stops it, in the state it was in. *)
Inductive exception :=
  | ValueError                       (* raised by [int] *)
  | OpenError (fileName : string).   (* raised by [open] *)
Inductive outcome :=
  | Completed (st : process)
  | Raised (e : exception) (st : process).

(** The statements after a statement that may raise. *)
Definition and_then (r : outcome) (rest : process → outcome) : outcome :=
  match r with
  | Completed st => rest st
  | Raised e st => Raised e st
  end.

(** [for x in items: body], left at the first exception. *)
Fixpoint for_each {A : Type} (body : process → A → outcome) (st : process)
    (items : list A) : outcome :=
  match items with
  | [] => Completed st
  | x :: items => and_then (body st x) (λ st, for_each body st items)
  end.

(** [f = open(fileName, "w"); f.write(fileContents); f.close()]: when the
    file can be opened it is created or truncated and holds exactly
    [fileContents]; otherwise [open] raises and nothing is written. *)
Definition write_file (fileName fileContents : string) (st : process) : outcome :=
  if can_open fileName
  then Completed {| fileNames := fileNames st; stdout := stdout st;
                    files := <[fileName := fileContents]> (files st) |}
  else Raised (OpenError fileName) st.

(** Python's [range(a, b)] on integers. *)
Definition python_range (a b : Z) : list Z := seqZ a (b - a).

Definition dquote : string := String (Ascii.ascii_of_nat 34) EmptyString.
Definition newline : string := String (Ascii.ascii_of_nat 10) EmptyString.

(** [includeSpecializationsTemplate] up to [{{ scriptName }}] (the quote
    before it left out). *)
Definition includeSpecializations_head : string :=
"// -*- mode: C++; tab-width: 4; indent-tabs-mode: nil; c-basic-offset: 4 -*-
// vi: set et ts=4 sw=4 sts=4:
/*
  This file is part of the Open Porous Media project (OPM).

  OPM is free software: you can redistribute it and/or modify
  it under the terms of the GNU General Public License as published by
  the Free Software Foundation, either version 2 of the License, or
  (at your option) any later version.

  OPM is distributed in the hope that it will be useful,
  but WITHOUT ANY WARRANTY; without even the implied warranty of
  MERCHANTABILITY or FITNESS FOR A PARTICULAR PURPOSE.  See the
  GNU General Public License for more details.

  You should have received a copy of the GNU General Public License
  along with OPM.  If not, see <http://www.gnu.org/licenses/>.

  Consult the COPYING file in the top-level source directory of this
  module for the precise wording of the license and the list of
  copyright holders.
*/
/*!
 * \file
 *
 * \brief This file includes all specializations for the dense-AD Evaluation class.
 *
 * \attention THIS FILE GETS AUTOMATICALLY GENERATED BY THE ".

(** ... and from the quote after [{{ scriptName }}] to the [for] block. *)
Definition includeSpecializations_guard : string :=
"
 *            SCRIPT. DO NOT EDIT IT MANUALLY!
 */
#ifndef OPM_DENSEAD_EVALUATION_SPECIALIZATIONS_HPP
#define OPM_DENSEAD_EVALUATION_SPECIALIZATIONS_HPP

".

(** The template rendered: the body of [{% for fileName in fileNames %}]
    once per file name, in the order of the list; the last newline of a
    template is not part of jinja2's output. *)
Definition render_includeSpecializations (fileNames : list string)
    (scriptName : string) : string :=
  includeSpecializations_head +:+ dquote +:+ scriptName +:+ dquote
  +:+ includeSpecializations_guard
  +:+ String.concat "" ((λ fileName, "#include <" +:+ fileName +:+ ">" +:+ newline) <$> fileNames)
  +:+ newline +:+ "#endif // OPM_DENSEAD_EVALUATION_SPECIALIZATIONS_HPP".

(** [maxDerivs = 12; if len(sys.argv) == 2: maxDerivs = int(sys.argv[1])]. *)
Definition read_maxDerivs (argv : list string) : option Z :=
  if decide (length argv = 2) then python_int (argv !!! 1) else Some 12%Z.

(** ["Generating specialization for %d derivatives" % numDerivs] and
    ["opm/material/densead/Evaluation%d.hpp" % numDerivs]. *)
Definition progress_line (numDerivs : Z) : string :=
  "Generating specialization for " +:+ pretty numDerivs +:+ " derivatives".
Definition specialization_file (numDerivs : Z) : string :=
  "opm/material/densead/Evaluation" +:+ pretty numDerivs +:+ ".hpp".

(** One iteration of [for numDerivs in range(1, maxDerivs + 1)]. *)
Definition generate_specialization (argv0 : string) (st : process) (numDerivs : Z) : outcome :=
  let st := print (progress_line numDerivs) st in
  let fileName := specialization_file numDerivs in
  let st := fileNames_append fileName st in
  let fileContents := render_specialization numDerivs (basename argv0) in
  write_file fileName fileContents st.

(** The script, run as [argv0 args...] on the files [fs]. *)
Definition main (argv0 : string) (args : list string) (fs : gmap string string) : outcome :=
  let st := {| fileNames := []; stdout := []; files := fs |} in
  match read_maxDerivs (argv0 :: args) with
  | None => Raised ValueError st
  | Some maxDerivs =>
      let st := print "Generating generic template class" st in
      let fileName := "opm/material/densead/Evaluation.hpp" in
      let fileContents := render_specialization (-1) (basename argv0) in
      and_then (write_file fileName fileContents st) (λ st,
      and_then (for_each (generate_specialization argv0) st
                  (python_range 1 (maxDerivs + 1))) (λ st,
      let fileContents := render_includeSpecializations (fileNames st) (basename argv0) in
      write_file "opm/material/densead/EvaluationSpecializations.hpp" fileContents st))
  end.

(** *** What the generator is meant to leave behind *)

(** The files of a run with bound [maxDerivs], with their contents: the
    generic class, one specialisation per [n = 1 .. maxDerivs], and the
    header that includes the specialisations in ascending order. *)
Definition generated_files (maxDerivs : Z) (scriptName : string) : list (string * string) :=
  [("opm/material/densead/Evaluation.hpp", render_specialization (-1) scriptName)]
  ++ ((λ n, (specialization_file n, render_specialization n scriptName)) <$> seqZ 1 maxDerivs)
  ++ [("opm/material/densead/EvaluationSpecializations.hpp",
       render_includeSpecializations (specialization_file <$> seqZ 1 maxDerivs) scriptName)].

(** Writing a list of files one after the other. *)
Definition write_all (out : list (string * string)) (fs : gmap string string) :
    gmap string string :=
  foldl (λ fs fc, <[fc.1 := fc.2]> fs) fs out.

(** The state after the iterations of the loop for [ns], all of which
    could open their file. *)
Definition after_specializations (argv0 : string) (ns : list Z) (st : process) : process :=
  {| fileNames := fileNames st ++ (specialization_file <$> ns);
     stdout := stdout st ++ (progress_line <$> ns);
     files := write_all
       ((λ n, (specialization_file n, render_specialization n (basename argv0))) <$> ns)
       (files st) |}.

(** The state a completed run with bound [maxDerivs] leaves. *)
Definition completed_state (argv0 : string) (maxDerivs : Z)
    (fs : gmap string string) : process :=
  {| fileNames := specialization_file <$> seqZ 1 maxDerivs;
     stdout := "Generating generic template class" :: (progress_line <$> seqZ 1 maxDerivs);
     files := list_to_map (generated_files maxDerivs (basename argv0)) ∪ fs |}.
End Generator.

(** A decimal numeral starts with a digit or a minus sign: what tells the
    name of a specialisation from the two other file names. *)
Definition numeral_head (s : string) : Prop :=
  match s with
  | EmptyString => False
  | String c _ => (∃ d : N, c = pretty_N_char d) ∨ c = Ascii.ascii_of_nat 45
  end.

(** ** Symbolic scalars *)

(** A scalar type that only records what was computed: inputs,
    indeterminate storage, the two literals and the operation trees over
    them.  Two symbolic results are equal exactly when the same operations
    were applied to the same operands in the same order. *)
Inductive symbolic :=
  | SInput (n : nat)
  | SIndeterminate (slot : nat)
  | SZero
  | SOne
  | SAdd (x y : symbolic)
  | SSub (x y : symbolic)
  | SMul (x y : symbolic)
  | SDiv (x y : symbolic)
  | SNeg (x : symbolic).

#[export] Instance symbolic_eq_dec : EqDecision symbolic.
Proof. solve_decision. Defined.

#[export] Instance symbolic_scalar : Scalar symbolic := {|
  Vzero := SZero;
  Vone := SOne;
  Vadd := SAdd;
  Vsub := SSub;
  Vmul := SMul;
  Vdiv := SDiv;
  Vneg := SNeg;
  Veqb := λ x y, bool_decide (x = y);
  Vltb := λ _ _, false;
  Vleb := λ x y, bool_decide (x = y)
|}.

(** ** Sample inputs *)

(** Two symbolic Evaluations with two derivatives, over inputs 0..5. *)
Definition symbolic_x : Evaluation symbolic :=
  mkEvaluation [SInput 0; SInput 1; SInput 2].
Definition symbolic_y : Evaluation symbolic :=
  mkEvaluation [SInput 3; SInput 4; SInput 5].

(** Doubles: [variable(3, 0)] and [variable(4, 1)] with two derivatives,
    two Evaluations of equal value, and some storage content. *)
Definition sample_u : Evaluation float := mkEvaluation [3; 1; 0]%float.
Definition sample_v : Evaluation float := mkEvaluation [4; 0; 1]%float.
Definition sample_a : Evaluation float := mkEvaluation [2; 1; 0]%float.
Definition sample_b : Evaluation float := mkEvaluation [2; 0; 1]%float.
Definition sample_w : Evaluation float := mkEvaluation [2; 3; 5]%float.
Definition sample_nan : Evaluation float := mkEvaluation [2; nan; 0]%float.
Definition sample_zero : Evaluation float := mkEvaluation [0; 0; 1]%float.
Definition sample_junk : nat → float :=
  λ slot, if Nat.even slot then 7.5%float else (-2)%float.

(** A command line reader that knows one numeral, and a stand-in for the
    rendering of the class template. *)
Definition sample_int (s : string) : option Z :=
  if decide (s = "2") then Some 2%Z else None.
Definition sample_render (numDerivs : Z) (scriptName : string) : string :=
  "// " +:+ scriptName +:+ " " +:+ pretty numDerivs.

(** A file system in which every file can be opened for writing, and one
    in which the second specialisation cannot. *)
Definition sample_open (fileName : string) : bool := true.

(** ** Loops *)

Section Loops.
Context {S : Type}.
Implicit Types (body : nat → S → S) (s : S).

Lemma unrolled_snoc indices i body s :
  unrolled (indices ++ [i]) body s = body i (unrolled indices body s).
Proof. unfold unrolled. by rewrite foldl_app. Qed.

Lemma unrolled_cons i indices body s :
  unrolled (i :: indices) body s = unrolled indices body (body i s).
Proof. done. Qed.

(** Enough fuel: the loop stops because its test fails, and what it did
    is the body at [i, i+1, ..., hi-1] in this order. *)
Lemma for_loop_from_unrolled fuel i hi body s :
  hi - i ≤ fuel →
  for_loop_from fuel i hi body s = unrolled (seq i (hi - i)) body s.
Proof.
  revert i s. induction fuel as [|fuel IH]; intros i s Hfuel; simpl.
  - by replace (hi - i) with 0 by lia.
  - destruct (decide (i < hi)) as [Hlt|Hge].
    + rewrite IH by lia.
      replace (hi - i) with (Datatypes.S (hi - (i + 1))) by lia.
      simpl. by replace (Datatypes.S i) with (i + 1) by lia.
    + by replace (hi - i) with 0 by lia.
Qed.

Lemma for_loop_unrolled lo hi body s :
  for_loop lo hi body s = unrolled (range lo hi) body s.
Proof. unfold for_loop, range. by apply for_loop_from_unrolled. Qed.

(** The two renderings of one loop of the template run the same
    statements in the same order. *)
Lemma loop_unrolled v lo hi body s :
  loop v lo hi (range lo hi) body s = unrolled (range lo hi) body s.
Proof. destruct v; simpl; [apply for_loop_unrolled | done]. Qed.

Lemma loop_variant n lo hi body s :
  loop (Generic n) lo hi (range lo hi) body s
  = loop (Specialization n) lo hi (range lo hi) body s.
Proof. by rewrite !loop_unrolled. Qed.

Lemma range_snoc lo hi : lo ≤ hi → range lo (hi + 1) = range lo hi ++ [hi].
Proof.
  intros Hle. unfold range.
  replace (hi + 1 - lo) with (Datatypes.S (hi - lo)) by lia.
  rewrite seq_S. do 2 f_equal. lia.
Qed.
End Loops.

(** ** Storage lemmas *)

Section Storage.
Context {V : Type} `{Scalar V}.
Implicit Types (e this other : Evaluation V) (v : variant).

Lemma length_store i x e : length (data_ (store i x e)) = length (data_ e).
Proof. apply length_insert. Qed.

Lemma at_store_eq i x e : i < length (data_ e) → at_ (store i x e) i = x.
Proof.
  intros Hlt. unfold at_, store; simpl.
  apply list_lookup_total_correct. by apply list_lookup_insert_eq.
Qed.

Lemma at_store_ne i j x e : i ≠ j → at_ (store i x e) j = at_ e j.
Proof.
  intros Hne. unfold at_, store; simpl.
  by rewrite !list_lookup_total_alt, list_lookup_insert_ne.
Qed.

Lemma at_store i j x e :
  at_ (store i x e) j = if decide (i = j ∧ j < length (data_ e)) then x else at_ e j.
Proof.
  destruct (decide (i = j)) as [->|Hne].
  - destruct (decide (j < length (data_ e))) as [Hlt|Hge].
    + rewrite decide_True by done. by apply at_store_eq.
    + rewrite decide_False by tauto. unfold at_, store; simpl.
      by rewrite list_insert_ge by lia.
  - rewrite decide_False by tauto. by apply at_store_ne.
Qed.

(** Two arrays of the same length with the same elements are the same. *)
Lemma Evaluation_ext e e' :
  length (data_ e) = length (data_ e') →
  (∀ j, j < length (data_ e) → at_ e j = at_ e' j) →
  e = e'.
Proof.
  destruct e as [l], e' as [l']; unfold at_; simpl. intros Hlen Hat.
  f_equal. apply list_eq_same_length with (length l); [done..|].
  intros j x y Hj Hx Hy.
  specialize (Hat j Hj). rewrite !list_lookup_total_alt, Hx, Hy in Hat. done.
Qed.

Lemma length_uninitialized (junk : nat → V) v : length (data_ (uninitialized junk v)) = length_ v.
Proof. unfold uninitialized; simpl. by rewrite length_fmap, length_seq. Qed.

Lemma length_Evaluation_default v :
  length (data_ (Evaluation_default (V:=V) v)) = length_ v.
Proof. unfold Evaluation_default; simpl. by rewrite length_replicate. Qed.

Lemma at_Evaluation_default v j : at_ (Evaluation_default (V:=V) v) j = Vzero.
Proof.
  unfold at_, Evaluation_default; simpl. rewrite list_lookup_total_alt.
  destruct (decide (j < length_ v)) as [Hlt|Hge].
  - by rewrite lookup_replicate_2.
  - assert (replicate (length_ v) (Vzero (V:=V)) !! j = None) as ->; [|done].
    apply lookup_replicate_None. lia.
Qed.

(** A loop whose statement [i] overwrites slot [i] with a function of
    the slot's own content: every slot of the range that exists is
    rewritten once, from its content before the loop; nothing else moves. *)
Lemma unrolled_pointwise (body : nat → Evaluation V → Evaluation V)
    (g : nat → V → V) lo hi e :
  (∀ i this, body i this = store i (g i (at_ this i)) this) →
  length (data_ (unrolled (range lo hi) body e)) = length (data_ e) ∧
  ∀ j, at_ (unrolled (range lo hi) body e) j
       = if decide (lo ≤ j < hi ∧ j < length (data_ e)) then g j (at_ e j) else at_ e j.
Proof.
  intros Hbody. unfold range.
  assert (∀ n,
    length (data_ (unrolled (seq lo n) body e)) = length (data_ e) ∧
    ∀ j, at_ (unrolled (seq lo n) body e) j
         = if decide (lo ≤ j < lo + n ∧ j < length (data_ e))
           then g j (at_ e j) else at_ e j) as Hn.
  { induction n as [|n [IHlen IHat]].
    - split; [done|]. intros j. rewrite decide_False by lia. done.
    - rewrite seq_S, unrolled_snoc, Hbody. split.
      + by rewrite length_store.
      + intros j. rewrite at_store, IHlen, !IHat.
        repeat case_decide; try done; try lia.
        destruct_and?; by subst. }
  destruct (Hn (hi - lo)) as [Hlen Hat]. split; [done|].
  intros j. rewrite Hat. repeat case_decide; try done; lia.
Qed.

(** The two index ranges of the template, with their C++ bounds. *)
Lemma loop_derivatives v (body : nat → Evaluation V → Evaluation V) s :
  loop v dstart_ (dend_ v) (range 1 (numDerivs v + 1)) body s
  = unrolled (range 1 (size v + 1)) body s.
Proof. exact (loop_unrolled v 1 (size v + 1) body s). Qed.

Lemma loop_all v (body : nat → Evaluation V → Evaluation V) s :
  loop v 0 (length_ v) (range 0 (numDerivs v + 1)) body s
  = unrolled (range 0 (size v + 1)) body s.
Proof. exact (loop_unrolled v 0 (size v + 1) body s). Qed.

Lemma at_deref this (other : operand V) i :
  at_ (deref this other) i = operand_at other i (at_ this i).
Proof. by destruct other. Qed.
End Storage.

(** ** What the member functions compute, slot by slot *)

Section Members.
Context {V : Type} `{Scalar V}.
Variable junk : nat → V.
Implicit Types (e this : Evaluation V) (other : operand V) (v : variant).

(** Solves the side condition of [unrolled_pointwise] for a loop body
    that reads [other.data_[i]]. *)
Local Ltac pointwise_body :=
  intros ? ?; rewrite ?at_deref; reflexivity.

Lemma slots_clearDerivatives v this :
  length (data_ (clearDerivatives v this)) = length (data_ this) ∧
  ∀ j, at_ (clearDerivatives v this) j
       = if decide (1 ≤ j < size v + 1 ∧ j < length (data_ this))
         then Vzero else at_ this j.
Proof.
  unfold clearDerivatives. rewrite loop_derivatives.
  apply (unrolled_pointwise _ (λ _ _, Vzero)). pointwise_body.
Qed.

Lemma slots_Evaluation_copy v e :
  well_formed v e → Evaluation_copy junk v e = e.
Proof.
  unfold well_formed. intros Hwf. destruct v as [n|n]; simpl.
  - by destruct e.
  - destruct (unrolled_pointwise
      (λ i this, store i (at_ e i) this) (λ i _, at_ e i) 0 (n + 1)
      (uninitialized junk (Specialization n))) as [Hlen Hat]; [done|].
    rewrite length_uninitialized in Hlen, Hat.
    apply Evaluation_ext; [by rewrite Hlen|].
    intros j Hj. rewrite Hat. rewrite Hlen in Hj.
    unfold length_ in *; simpl in *. rewrite decide_True by lia. done.
Qed.

Lemma slots_Evaluation_constant v c :
  length (data_ (Evaluation_constant junk v c)) = length_ v ∧
  ∀ j, j < length_ v →
       at_ (Evaluation_constant junk v c) j = if decide (j = 0) then c else Vzero.
Proof.
  unfold Evaluation_constant, setValue, valuepos_.
  destruct (slots_clearDerivatives v (store 0 c (uninitialized junk v))) as [Hlen Hat].
  rewrite length_store, length_uninitialized in Hlen, Hat.
  split; [done|]. intros j Hj. rewrite Hat. unfold length_ in *.
  destruct (decide (j = 0)) as [->|Hne].
  - rewrite decide_False by lia. apply at_store_eq.
    rewrite length_uninitialized. unfold length_. lia.
  - rewrite decide_True by lia. done.
Qed.

Lemma well_formed_Evaluation_constant v c :
  well_formed v (Evaluation_constant junk v c).
Proof. apply slots_Evaluation_constant. Qed.

Lemma well_formed_Evaluation_default v : well_formed v (Evaluation_default (V:=V) v).
Proof. apply length_Evaluation_default. Qed.

Lemma slots_copyDerivatives v other this :
  length (data_ (copyDerivatives v other this)) = length (data_ this) ∧
  ∀ j, at_ (copyDerivatives v other this) j
       = if decide (1 ≤ j < size v + 1 ∧ j < length (data_ this))
         then operand_at other j (at_ this j) else at_ this j.
Proof.
  unfold copyDerivatives. rewrite loop_derivatives.
  apply (unrolled_pointwise _ (λ j x, operand_at other j x)). pointwise_body.
Qed.

Lemma slots_add_assign v other this :
  length (data_ (add_assign v other this)) = length (data_ this) ∧
  ∀ j, at_ (add_assign v other this) j
       = if decide (0 ≤ j < size v + 1 ∧ j < length (data_ this))
         then Vadd (at_ this j) (operand_at other j (at_ this j)) else at_ this j.
Proof.
  unfold add_assign. rewrite loop_all.
  apply (unrolled_pointwise _ (λ j x, Vadd x (operand_at other j x))). pointwise_body.
Qed.

Lemma slots_sub_assign v other this :
  length (data_ (sub_assign v other this)) = length (data_ this) ∧
  ∀ j, at_ (sub_assign v other this) j
       = if decide (0 ≤ j < size v + 1 ∧ j < length (data_ this))
         then Vsub (at_ this j) (operand_at other j (at_ this j)) else at_ this j.
Proof.
  unfold sub_assign. rewrite loop_all.
  apply (unrolled_pointwise _ (λ j x, Vsub x (operand_at other j x))). pointwise_body.
Qed.

Lemma slots_mul_assign_scalar v a this :
  length (data_ (mul_assign_scalar v a this)) = length (data_ this) ∧
  ∀ j, at_ (mul_assign_scalar v a this) j
       = if decide (0 ≤ j < size v + 1 ∧ j < length (data_ this))
         then Vmul (at_ this j) a else at_ this j.
Proof.
  unfold mul_assign_scalar, mul_assign_scalar_ref. rewrite loop_all.
  apply (unrolled_pointwise _ (λ j x, Vmul x a)). pointwise_body.
Qed.

Lemma slots_div_assign_scalar v a this :
  length (data_ (div_assign_scalar v a this)) = length (data_ this) ∧
  ∀ j, at_ (div_assign_scalar v a this) j
       = if decide (0 ≤ j < size v + 1 ∧ j < length (data_ this))
         then Vmul (at_ this j) (Vdiv Vone a) else at_ this j.
Proof.
  unfold div_assign_scalar. rewrite loop_all.
  apply (unrolled_pointwise _ (λ j x, Vmul x (Vdiv Vone a))). pointwise_body.
Qed.

Lemma slots_assign v other this :
  length (data_ (assign v other this)) = length (data_ this) ∧
  ∀ j, at_ (assign v other this) j
       = if decide (0 ≤ j < size v + 1 ∧ j < length (data_ this))
         then operand_at other j (at_ this j) else at_ this j.
Proof.
  unfold assign. rewrite loop_all.
  apply (unrolled_pointwise _ (λ j x, operand_at other j x)). pointwise_body.
Qed.

Lemma slots_op_neg v this :
  length (data_ (op_neg v this)) = length_ v ∧
  ∀ j, j < length_ v → at_ (op_neg v this) j = Vneg (at_ this j).
Proof.
  unfold op_neg. rewrite loop_all.
  destruct (unrolled_pointwise
    (λ i result, store i (Vneg (at_ this i)) result) (λ j _, Vneg (at_ this j))
    0 (size v + 1) (Evaluation_default v)) as [Hlen Hat]; [done|].
  rewrite length_Evaluation_default in Hlen, Hat. split; [done|].
  intros j Hj. rewrite Hat. unfold length_ in *. rewrite decide_True by lia. done.
Qed.

(** The product rule: the slots of [this *= other] in terms of the
    slots before the call, whether or not [other] is [*this]. *)
Lemma slots_mul_assign v other this :
  0 < length (data_ this) →
  length (data_ (mul_assign v other this)) = length (data_ this) ∧
  at_ (mul_assign v other this) 0
    = Vmul (value this) (value (deref this other)) ∧
  ∀ j, 1 ≤ j < size v + 1 → j < length (data_ this) →
       at_ (mul_assign v other this) j
       = Vadd (Vmul (at_ this j) (value (deref this other)))
              (Vmul (at_ (deref this other) j) (value this)).
Proof.
  intros Hpos. unfold mul_assign. rewrite loop_derivatives.
  set (u := value this). set (v' := value (deref this other)).
  set (this1 := store valuepos_ (Vmul (at_ this valuepos_) v') this).
  destruct (unrolled_pointwise
    (λ i this0, store i (Vadd (Vmul (at_ this0 i) v')
                              (Vmul (at_ (deref this0 other) i) u)) this0)
    (λ j x, Vadd (Vmul x v') (Vmul (operand_at other j x) u))
    1 (size v + 1) this1) as [Hlen Hat]; [pointwise_body|].
  subst this1. rewrite length_store in Hlen, Hat.
  split; [done|]. split.
  - rewrite Hat, decide_False by lia. unfold valuepos_. by rewrite at_store_eq.
  - intros j Hj Hlt. rewrite Hat, decide_True by lia.
    unfold valuepos_. rewrite at_store_ne by lia. by rewrite at_deref.
Qed.

(** The quotient rule, likewise. *)
Lemma slots_div_assign v other this :
  0 < length (data_ this) →
  let v_vv := Vdiv Vone (value (deref this other)) in
  let u_vv := Vmul (Vmul (value this) v_vv) v_vv in
  length (data_ (div_assign v other this)) = length (data_ this) ∧
  at_ (div_assign v other this) 0 = Vmul (value this) v_vv ∧
  ∀ j, 1 ≤ j < size v + 1 → j < length (data_ this) →
       at_ (div_assign v other this) j
       = Vsub (Vmul (at_ this j) v_vv) (Vmul (at_ (deref this other) j) u_vv).
Proof.
  intros Hpos v_vv u_vv. unfold div_assign. rewrite loop_derivatives.
  fold v_vv. fold u_vv.
  set (this1 := store valuepos_ (Vmul (at_ this valuepos_) v_vv) this).
  destruct (unrolled_pointwise
    (λ i this0, store i (Vsub (Vmul (at_ this0 i) v_vv)
                              (Vmul (at_ (deref this0 other) i) u_vv)) this0)
    (λ j x, Vsub (Vmul x v_vv) (Vmul (operand_at other j x) u_vv))
    1 (size v + 1) this1) as [Hlen Hat]; [pointwise_body|].
  subst this1. rewrite length_store in Hlen, Hat.
  split; [done|]. split.
  - rewrite Hat, decide_False by lia. unfold valuepos_. by rewrite at_store_eq.
  - intros j Hj Hlt. rewrite Hat, decide_True by lia.
    unfold valuepos_. rewrite at_store_ne by lia. by rewrite at_deref.
Qed.

(** [divide(a, b)]. *)
Lemma slots_divide v a b :
  let tmp := Vdiv Vone (value b) in
  length (data_ (divide v a b)) = length_ v ∧
  at_ (divide v a b) 0 = Vmul a tmp ∧
  ∀ j, 1 ≤ j < size v + 1 →
       at_ (divide v a b) j = Vmul (Vmul (Vneg (Vmul a tmp)) tmp) (at_ b j).
Proof.
  intros tmp. unfold divide. rewrite loop_derivatives. fold tmp.
  set (result := setValue (Vmul a tmp) (Evaluation_default v)).
  assert (value result = Vmul a tmp) as Hval.
  { unfold value, result, setValue, valuepos_. apply at_store_eq.
    rewrite length_Evaluation_default. unfold length_. lia. }
  rewrite Hval.
  destruct (unrolled_pointwise
    (λ i result0, store i (Vmul (Vmul (Vneg (Vmul a tmp)) tmp) (at_ b i)) result0)
    (λ j _, Vmul (Vmul (Vneg (Vmul a tmp)) tmp) (at_ b j))
    1 (size v + 1) result) as [Hlen Hat]; [done|].
  unfold result, setValue in Hlen, Hat.
  rewrite length_store, length_Evaluation_default in Hlen, Hat.
  fold (setValue (Vmul a tmp) (Evaluation_default v)) in Hlen, Hat. fold result in Hlen, Hat.
  split; [done|]. split.
  - rewrite Hat, decide_False by lia. exact Hval.
  - intros j Hj. rewrite Hat. unfold length_. rewrite decide_True by lia. done.
Qed.
End Members.

(** ** The unrolled specialisations against the generic class *)

Section Variants.
Context {V : Type} `{Scalar V}.
Implicit Types (e this x y : Evaluation V) (other : operand V).

(** A freshly constructed constant does not depend on what the storage
    held, nor on the variant. *)
Lemma Evaluation_constant_variant (junk junk' : nat → V) N c :
  Evaluation_constant junk (Generic N) c = Evaluation_constant junk' (Specialization N) c.
Proof.
  destruct (slots_Evaluation_constant junk (Generic N) c) as [Hlen Hat].
  destruct (slots_Evaluation_constant junk' (Specialization N) c) as [Hlen' Hat'].
  apply Evaluation_ext; [by rewrite Hlen, Hlen'|].
  intros j Hj. rewrite Hlen in Hj. rewrite Hat, Hat' by done. done.
Qed.

Lemma Evaluation_copy_variant (junk junk' : nat → V) N x :
  well_formed (Generic N) x →
  Evaluation_copy junk (Generic N) x = Evaluation_copy junk' (Specialization N) x.
Proof.
  intros Hwf.
  rewrite (slots_Evaluation_copy junk (Generic N)) by done.
  rewrite (slots_Evaluation_copy junk' (Specialization N)) by done. done.
Qed.

Lemma op_eq_variant N x y : op_eq (Generic N) x y = op_eq (Specialization N) x y.
Proof.
  unfold op_eq. change (length_ (Specialization N)) with (length_ (Generic N)).
  generalize (length_ (Generic N)) 0. intros fuel.
  induction fuel as [|fuel IH]; intros idx; simpl; [done|].
  change (length_ (Specialization N)) with (length_ (Generic N)).
  by rewrite IH.
Qed.

(** Rewrites every loop of both variants into the statement sequence it
    executes. *)
Local Ltac same_statements :=
  rewrite ?loop_derivatives, ?loop_all; reflexivity.

(** C3. For every derivative count [N] (in particular every [N] from 1
    to [maxDerivs]) and every input, each operation of the unrolled
    specialisation [Evaluation<ValueT, N>] returns exactly what the
    generic, loop based class returns: the same value and derivative slots,
    computed by the same scalar operations in the same order (no law of
    the scalar type is used).  Covered: the four constructors,
    [clearDerivatives], [copyDerivatives], the compound assignments with an
    Evaluation or a scalar on the right, [divide], unary minus, both
    assignments, the binary operators built on them, the free operators
    with the scalar on the left, the accessors and [==], [!=].  (The
    ordering comparisons and the scalar forms of [+=] and [-=] are one
    text in both renderings and do not mention [size].)
    [junk] and [junk'] are the indeterminate contents of the storage the
    two variants construct into. *)
Theorem specialization_equals_generic (junk junk' : nat → V) (N : nat)
    (x y : Evaluation V) (other : operand V) (a : V) (k : Z) :
  well_formed (Generic N) x →
  let G := Generic N in
  let U := Specialization N in
  (Evaluation_default (V:=V) G = Evaluation_default U
   ∧ Evaluation_copy junk G x = Evaluation_copy junk' U x
   ∧ Evaluation_constant junk G a = Evaluation_constant junk' U a
   ∧ createConstant junk G a = createConstant junk' U a
   ∧ Evaluation_variable junk G a k = Evaluation_variable junk' U a k
   ∧ createVariable junk G a k = createVariable junk' U a k)
  ∧ (clearDerivatives G x = clearDerivatives U x
     ∧ copyDerivatives G other x = copyDerivatives U other x)
  ∧ (add_assign G other x = add_assign U other x
     ∧ sub_assign G other x = sub_assign U other x
     ∧ mul_assign G other x = mul_assign U other x
     ∧ mul_assign_scalar G a x = mul_assign_scalar U a x
     ∧ div_assign G other x = div_assign U other x
     ∧ div_assign_scalar G a x = div_assign_scalar U a x)
  ∧ (divide G a y = divide U a y
     ∧ op_neg G x = op_neg U x
     ∧ assign_scalar G a x = assign_scalar U a x
     ∧ assign G other x = assign U other x)
  ∧ (op_add junk G x y = op_add junk' U x y
     ∧ op_add_scalar junk G x a = op_add_scalar junk' U x a
     ∧ op_sub junk G x y = op_sub junk' U x y
     ∧ op_sub_scalar junk G x a = op_sub_scalar junk' U x a
     ∧ op_mul junk G x y = op_mul junk' U x y
     ∧ op_mul_scalar junk G x a = op_mul_scalar junk' U x a
     ∧ op_div junk G x y = op_div junk' U x y
     ∧ op_div_scalar junk G x a = op_div_scalar junk' U x a)
  ∧ (scalar_add junk G a x = scalar_add junk' U a x
     ∧ scalar_sub junk G a y = scalar_sub junk' U a y
     ∧ scalar_mul junk G a x = scalar_mul junk' U a x
     ∧ scalar_div G a y = scalar_div U a y)
  ∧ (derivative G x k = derivative U x k
     ∧ setDerivative G k a x = setDerivative U k a x
     ∧ op_eq G x y = op_eq U x y
     ∧ op_ne G x y = op_ne U x y).
Proof.
  intros Hwf G U.
  pose proof (Evaluation_copy_variant junk junk' N x Hwf) as Hcopy.
  pose proof (Evaluation_constant_variant junk junk' N a) as Hconst.
  fold G U in Hcopy, Hconst.
  assert (Evaluation_variable junk G a k = Evaluation_variable junk' U a k) as Hvar.
  { unfold Evaluation_variable. fold (Evaluation_constant junk G a).
    fold (Evaluation_constant junk' U a). by rewrite Hconst. }
  pose proof (op_eq_variant N x y) as Heq. fold G U in Heq.
  repeat split; try done.
  - unfold clearDerivatives. same_statements.
  - unfold copyDerivatives. same_statements.
  - unfold add_assign. same_statements.
  - unfold sub_assign. same_statements.
  - unfold mul_assign. same_statements.
  - unfold mul_assign_scalar, mul_assign_scalar_ref. same_statements.
  - unfold div_assign. same_statements.
  - unfold div_assign_scalar. same_statements.
  - unfold divide. same_statements.
  - unfold op_neg. same_statements.
  - unfold assign_scalar, clearDerivatives. same_statements.
  - unfold assign. same_statements.
  - unfold op_add. rewrite Hcopy. unfold add_assign. same_statements.
  - unfold op_add_scalar. by rewrite Hcopy.
  - unfold op_sub. rewrite Hcopy. unfold sub_assign. same_statements.
  - unfold op_sub_scalar. by rewrite Hcopy.
  - unfold op_mul. rewrite Hcopy. unfold mul_assign. same_statements.
  - unfold op_mul_scalar. rewrite Hcopy. unfold mul_assign_scalar, mul_assign_scalar_ref. same_statements.
  - unfold op_div. rewrite Hcopy. unfold div_assign. same_statements.
  - unfold op_div_scalar. rewrite Hcopy. unfold div_assign_scalar. same_statements.
  - unfold scalar_add. by rewrite Hcopy.
  - unfold scalar_sub. rewrite Hconst. unfold sub_assign. same_statements.
  - unfold scalar_mul. rewrite Hcopy. unfold mul_assign_scalar, mul_assign_scalar_ref. same_statements.
  - unfold scalar_div, divide. same_statements.
  - unfold op_ne. by rewrite Heq.
Qed.
End Variants.

(** ** The algebra *)

Section Accessors.
Context {V : Type} `{Scalar V}.
Implicit Types (e this : Evaluation V) (v : variant).

Lemma derivative_in_range v e (i : Z) :
  (0 ≤ i < Z.of_nat (size v))%Z →
  derivative v e i = Returns (at_ e (Z.to_nat i + 1)).
Proof.
  intros Hi. unfold derivative. rewrite bool_decide_eq_true_2 by lia.
  do 2 f_equal. unfold dstart_. lia.
Qed.

Lemma derivative_out_of_range v e (i : Z) :
  ¬ (0 ≤ i < Z.of_nat (size v))%Z → derivative v e i = AssertionFailure.
Proof.
  intros Hi. unfold derivative. rewrite bool_decide_eq_false_2 by lia. done.
Qed.

Lemma well_formed_pos v e : well_formed v e → 0 < length (data_ e).
Proof. unfold well_formed, length_. lia. Qed.

Lemma derivative_slot v e (i : Z) :
  (0 ≤ i < Z.of_nat (size v))%Z → well_formed v e →
  1 ≤ Z.to_nat i + 1 < size v + 1 ∧ Z.to_nat i + 1 < length (data_ e).
Proof. unfold well_formed, length_. lia. Qed.
End Accessors.

(** C1. [this *= other] and [this * other]: with [u = this.value()] and
    [v = other.value()] as they are before the call, the result has value
    [u * v] and, for every index [i] in [0, size), derivative
    [d_u[i] * v + d_v[i] * u], where [d_u], [d_v] are the derivatives before
    the call. This holds for both variants, for every scalar type, and
    also when [other] is [*this].  On doubles, for [u = variable(3, 0)] and
    [v = variable(4, 1)] with two derivatives, [u * v] has value 12 and
    derivatives 4 and 3. *)
Theorem product_rule :
  (∀ (V : Type) (SV : Scalar V) (junk : nat → V) (vr : variant)
     (this : Evaluation V) (other : operand V),
     well_formed vr this →
     let u := value this in
     let v := value (deref this other) in
     (value (mul_assign vr other this) = Vmul u v
      ∧ ∀ i : Z, (0 ≤ i < Z.of_nat (size vr))%Z →
          ∃ du dv, derivative vr this i = Returns du
                   ∧ derivative vr (deref this other) i = Returns dv
                   ∧ derivative vr (mul_assign vr other this) i
                     = Returns (Vadd (Vmul du v) (Vmul dv u)))
     ∧ ∀ y : Evaluation V,
         value (op_mul junk vr this y) = Vmul u (value y)
         ∧ ∀ i : Z, (0 ≤ i < Z.of_nat (size vr))%Z →
             ∃ du dv, derivative vr this i = Returns du
                      ∧ derivative vr y i = Returns dv
                      ∧ derivative vr (op_mul junk vr this y) i
                        = Returns (Vadd (Vmul du (value y)) (Vmul dv u)))
  ∧ (∀ (junk : nat → float) (vr : variant), size vr = 2 →
     ∃ u v, createVariable junk vr 3%float 0 = Returns u
            ∧ createVariable junk vr 4%float 1 = Returns v
            ∧ value (op_mul junk vr u v) = 12%float
            ∧ derivative vr (op_mul junk vr u v) 0 = Returns 4%float
            ∧ derivative vr (op_mul junk vr u v) 1 = Returns 3%float).
Proof.
  split.
  - intros V SV junk vr this other Hwf u v.
    assert (∀ o : operand V,
      value (mul_assign vr o this) = Vmul u (value (deref this o))
      ∧ ∀ i : Z, (0 ≤ i < Z.of_nat (size vr))%Z →
          ∃ du dv, derivative vr this i = Returns du
                   ∧ derivative vr (deref this o) i = Returns dv
                   ∧ derivative vr (mul_assign vr o this) i
                     = Returns (Vadd (Vmul du (value (deref this o))) (Vmul dv u)))
      as Hassign.
    { intros o.
      destruct (slots_mul_assign vr o this (well_formed_pos _ _ Hwf))
        as (Hlen & Hval & Hder).
      split; [exact Hval|]. intros i Hi.
      destruct (derivative_slot vr this i Hi Hwf) as [Hj Hlt].
      eexists _, _. rewrite !derivative_in_range by done.
      repeat split. by rewrite Hder. }
    split; [apply Hassign|]. intros y. unfold op_mul.
    rewrite slots_Evaluation_copy by done. apply (Hassign (Obj y)).
  - intros junk [n|n] Hsize; simpl in Hsize; subst n;
      eexists _, _; repeat split; vm_compute; reflexivity.
Qed.

(** C2. [this /= other] and [this / other]: with [inv_v = 1/other.value()]
    and [u_scaled = this.value() * inv_v * inv_v] computed from the operands
    as they are before the call, the result has value [this.value() * inv_v]
    and, for every index [i] in [0, size), derivative
    [d_u[i] * inv_v - d_v[i] * u_scaled].  Both variants, every scalar type,
    also when [other] is [*this].  On doubles, for [u = variable(3, 0)] and
    [v = variable(4, 1)] with two derivatives, [u / v] has value 0.75 and
    derivatives 0.25 and -0.1875. *)
Theorem quotient_rule :
  (∀ (V : Type) (SV : Scalar V) (junk : nat → V) (vr : variant)
     (this : Evaluation V) (other : operand V),
     well_formed vr this →
     let inv_v := Vdiv Vone (value (deref this other)) in
     let u_scaled := Vmul (Vmul (value this) inv_v) inv_v in
     (value (div_assign vr other this) = Vmul (value this) inv_v
      ∧ ∀ i : Z, (0 ≤ i < Z.of_nat (size vr))%Z →
          ∃ du dv, derivative vr this i = Returns du
                   ∧ derivative vr (deref this other) i = Returns dv
                   ∧ derivative vr (div_assign vr other this) i
                     = Returns (Vsub (Vmul du inv_v) (Vmul dv u_scaled)))
     ∧ ∀ y : Evaluation V,
         let inv_y := Vdiv Vone (value y) in
         let u_scaled := Vmul (Vmul (value this) inv_y) inv_y in
         value (op_div junk vr this y) = Vmul (value this) inv_y
         ∧ ∀ i : Z, (0 ≤ i < Z.of_nat (size vr))%Z →
             ∃ du dv, derivative vr this i = Returns du
                      ∧ derivative vr y i = Returns dv
                      ∧ derivative vr (op_div junk vr this y) i
                        = Returns (Vsub (Vmul du inv_y) (Vmul dv u_scaled)))
  ∧ (∀ (junk : nat → float) (vr : variant), size vr = 2 →
     ∃ u v, createVariable junk vr 3%float 0 = Returns u
            ∧ createVariable junk vr 4%float 1 = Returns v
            ∧ value (op_div junk vr u v) = 0.75%float
            ∧ derivative vr (op_div junk vr u v) 0 = Returns 0.25%float
            ∧ derivative vr (op_div junk vr u v) 1 = Returns (-0.1875)%float).
Proof.
  split.
  - intros V SV junk vr this other Hwf.
    assert (∀ o : operand V,
      let inv_v := Vdiv Vone (value (deref this o)) in
      let u_scaled := Vmul (Vmul (value this) inv_v) inv_v in
      value (div_assign vr o this) = Vmul (value this) inv_v
      ∧ ∀ i : Z, (0 ≤ i < Z.of_nat (size vr))%Z →
          ∃ du dv, derivative vr this i = Returns du
                   ∧ derivative vr (deref this o) i = Returns dv
                   ∧ derivative vr (div_assign vr o this) i
                     = Returns (Vsub (Vmul du inv_v) (Vmul dv u_scaled)))
      as Hassign.
    { intros o inv_v u_scaled.
      destruct (slots_div_assign vr o this (well_formed_pos _ _ Hwf))
        as (Hlen & Hval & Hder).
      split; [exact Hval|]. intros i Hi.
      destruct (derivative_slot vr this i Hi Hwf) as [Hj Hlt].
      eexists _, _. rewrite !derivative_in_range by done.
      repeat split. by rewrite Hder. }
    intros inv_v u_scaled. split; [apply Hassign|]. intros y. unfold op_div.
    rewrite slots_Evaluation_copy by done. apply (Hassign (Obj y)).
  - intros junk [n|n] Hsize; simpl in Hsize; subst n;
      eexists _, _; repeat split; vm_compute; reflexivity.
Qed.

(** C4. [createVariable(value, varPos)] and the constructor it calls: for
    [0 <= varPos < size] the result has the given value, derivative 1 at
    [varPos] and derivative 0 at every other index of [0, size); for any
    other [varPos] the assertion at the head of the constructor fails and
    nothing is returned. *)
Theorem variable_derivatives {V : Type} `{Scalar V} (junk : nat → V)
    (vr : variant) (c : V) (k : Z) :
  ((0 ≤ k < Z.of_nat (size vr))%Z →
   ∃ e, createVariable junk vr c k = Returns e
        ∧ Evaluation_variable junk vr c k = Returns e
        ∧ well_formed vr e
        ∧ value e = c
        ∧ derivative vr e k = Returns Vone
        ∧ ∀ j : Z, (0 ≤ j < Z.of_nat (size vr))%Z → j ≠ k →
            derivative vr e j = Returns Vzero)
  ∧ (¬ (0 ≤ k < Z.of_nat (size vr))%Z →
     createVariable junk vr c k = AssertionFailure
     ∧ Evaluation_variable junk vr c k = AssertionFailure).
Proof.
  unfold createVariable, Evaluation_variable. split; intros Hk.
  - rewrite bool_decide_eq_true_2 by lia.
    fold (Evaluation_constant junk vr c).
    destruct (slots_Evaluation_constant junk vr c) as [Hlen Hat].
    set (e0 := Evaluation_constant junk vr c) in *.
    replace (Z.to_nat (k + Z.of_nat dstart_)) with (Z.to_nat k + 1)
      by (unfold dstart_; lia).
    eexists. split; [done|]. split; [done|].
    assert (Z.to_nat k + 1 < length_ vr) as Hslot by (unfold length_; lia).
    split; [|split; [|split]].
    + unfold well_formed. by rewrite length_store.
    + unfold value, valuepos_. rewrite at_store_ne by lia.
      rewrite Hat by (unfold length_; lia). done.
    + rewrite derivative_in_range by done. f_equal.
      apply at_store_eq. by rewrite Hlen.
    + intros j Hj Hne. rewrite derivative_in_range by done. f_equal.
      rewrite at_store_ne by lia.
      rewrite Hat by (unfold length_; lia). by rewrite decide_False by lia.
  - rewrite bool_decide_eq_false_2 by lia. done.
Qed.

(** C5. The free operator [a / x] with a scalar on the left is
    [divide(a, x)]: for every variant, every scalar [a] (in particular 1)
    and every Evaluation [x] (whatever its value, zero included) the two
    return the same object; its value is [a * (1/x.value())] and its
    derivative [i] is [(-(a * (1/x.value())) * (1/x.value())) * x.derivative(i)]. *)
Theorem divide_is_scalar_over_evaluation {V : Type} `{Scalar V}
    (vr : variant) (a : V) (x : Evaluation V) :
  scalar_div vr Vone x = divide vr Vone x
  ∧ scalar_div vr a x = divide vr a x
  ∧ let tmp := Vdiv Vone (value x) in
    value (divide vr a x) = Vmul a tmp
    ∧ ∀ i : Z, (0 ≤ i < Z.of_nat (size vr))%Z →
        ∃ dx, derivative vr x i = Returns dx
              ∧ derivative vr (divide vr a x) i
                = Returns (Vmul (Vmul (Vneg (Vmul a tmp)) tmp) dx).
Proof.
  repeat split.
  - apply slots_divide.
  - intros i Hi. destruct (slots_divide vr a x) as (Hlen & Hval & Hder).
    eexists. rewrite !derivative_in_range by done. split; [done|].
    f_equal. apply Hder. lia.
Qed.

(** C6. [x = c] for a scalar [c]: whatever [x] held, afterwards its value
    is [c] and every derivative is 0. *)
Theorem assign_scalar_clears {V : Type} `{Scalar V} (vr : variant)
    (this : Evaluation V) (c : V) :
  well_formed vr this →
  well_formed vr (assign_scalar vr c this)
  ∧ value (assign_scalar vr c this) = c
  ∧ ∀ i : Z, (0 ≤ i < Z.of_nat (size vr))%Z →
      derivative vr (assign_scalar vr c this) i = Returns Vzero.
Proof.
  intros Hwf. unfold assign_scalar, setValue.
  destruct (slots_clearDerivatives vr (store valuepos_ c this)) as [Hlen Hat].
  rewrite length_store in Hlen, Hat. unfold well_formed in *.
  split; [by rewrite Hlen|]. split.
  - unfold value, valuepos_ in *. rewrite Hat, decide_False by lia.
    apply at_store_eq. unfold length_ in *. lia.
  - intros i Hi. rewrite derivative_in_range by done. f_equal.
    rewrite Hat, decide_True; [done|]. unfold length_ in *. lia.
Qed.

(** ** IEEE binary64 satisfies the scalar laws *)

Section Doubles.
Local Open Scope float_scope.

Lemma SFcompare_Eq_sym (x y : spec_float) :
  SFcompare x y = Some Eq → SFcompare y x = Some Eq.
Proof.
  destruct x as [sx|sx| |sx mx ex], y as [sy|sy| |sy my ey]; simpl; try done;
    try (destruct sx; done); try (destruct sy; done);
    try (destruct sx, sy; done).
  destruct sx, sy; try done.
  - destruct (Z.compare_spec ex ey) as [->| |]; try done.
    rewrite Z.compare_refl. intros [= Hm].
    apply (f_equal CompOpp) in Hm. rewrite CompOpp_involutive in Hm. simpl in Hm.
    apply Pos.compare_eq in Hm as ->. by rewrite Pos.compare_cont_refl.
  - destruct (Z.compare_spec ex ey) as [->| |]; try done.
    rewrite Z.compare_refl. intros [= Hm].
    apply Pos.compare_eq in Hm as ->. by rewrite Pos.compare_cont_refl.
Qed.

Lemma double_order : ScalarOrder float.
Proof.
  split; intros x y; simpl;
    rewrite ?FloatAxioms.eqb_spec, ?FloatAxioms.leb_spec, ?FloatAxioms.ltb_spec;
    unfold SFeqb, SFleb, SFltb; intros Heq.
  - by destruct (SFcompare (Prim2SF x) (Prim2SF y)) as [[]|].
  - destruct (SFcompare (Prim2SF x) (Prim2SF y)) as [[]|] eqn:Hc; try done.
    by rewrite (SFcompare_Eq_sym _ _ Hc).
  - by destruct (SFcompare (Prim2SF x) (Prim2SF y)) as [[]|].
  - destruct (SFcompare (Prim2SF x) (Prim2SF y)) as [[]|] eqn:Hc; try done.
    by rewrite (SFcompare_Eq_sym _ _ Hc).
Qed.

(** [0.0 - x] is the double [-x], except at [x = +0.0], where it is
    [+0.0]: equal to [-0.0] under [==], but not the same double. *)
Lemma double_zero_minus (x : float) :
  (x ≠ 0 ∧ 0 - x = - x) ∨ (x = 0 ∧ 0 - x = 0 ∧ (0 - x =? - x) = true).
Proof.
  destruct (Prim2SF x) as [[]|s| |s m e] eqn:Hx.
  2:{ right. assert (x = 0) as -> by (by apply Prim2SF_inj). done. }
  all: left; split; [by intros ->|]; apply Prim2SF_inj;
    rewrite FloatAxioms.sub_spec, FloatAxioms.opp_spec, Hx; reflexivity.
Qed.

Lemma double_negation : ScalarNegation float.
Proof.
  intros x. unfold Vsame; simpl.
  destruct (double_zero_minus x) as [[_ Heq]|(_ & _ & Heq)]; auto.
Qed.
End Doubles.

(** ** Comparisons *)

Section Comparisons.
Context {V : Type} `{Scalar V}.
Implicit Types (x y : Evaluation V) (v : variant).

(** [operator==] returns [true] exactly when no slot differs under [!=]. *)
Lemma op_eq_from_true fuel idx v x y :
  op_eq_from fuel idx v x y = true
  ↔ ∀ j, idx ≤ j < idx + fuel → j < length_ v → Vneb (at_ x j) (at_ y j) = false.
Proof.
  revert idx. induction fuel as [|fuel IH]; intros idx; simpl.
  - split; [|done]. intros _ j Hj. lia.
  - destruct (decide (idx < length_ v)) as [Hlt|Hge].
    + destruct (Vneb (at_ x idx) (at_ y idx)) eqn:Hne.
      * split; [done|]. intros Hall.
        specialize (Hall idx ltac:(lia) Hlt). congruence.
      * rewrite IH. split.
        -- intros Hall j Hj Hlen. destruct (decide (j = idx)) as [->|]; [done|].
           apply Hall; lia.
        -- intros Hall j Hj Hlen. apply Hall; lia.
    + split; [|done]. intros _ j Hj Hlen. lia.
Qed.

Lemma op_eq_true v x y :
  op_eq v x y = true ↔ ∀ j, j < length_ v → Vneb (at_ x j) (at_ y j) = false.
Proof.
  unfold op_eq. rewrite op_eq_from_true. split.
  - intros Hall j Hj. apply Hall; lia.
  - intros Hall j _ Hj. by apply Hall.
Qed.

Lemma op_eq_false v x y j :
  j < length_ v → Vneb (at_ x j) (at_ y j) = true → op_eq v x y = false.
Proof.
  intros Hj Hne. apply not_true_is_false. rewrite op_eq_true. intros Hall.
  specialize (Hall j Hj). congruence.
Qed.
End Comparisons.

(** C7. The ordering operators between two Evaluations look at the
    values only, for all operands: [a < b], [a > b], [a <= b], [a >= b]
    are the scalar comparisons of [a.value()] with [b.value()], so
    replacing the operands by any others with the same values does not
    change them, whatever the derivatives.  If moreover
    [a.value() == b.value()] and some derivative of [a] differs ([!=]) from
    the same derivative of [b], then [a <= b] and [a >= b] are true,
    [a < b] and [a > b] are false, and [a == b] is false ([a != b] true),
    since [==] compares the value and every derivative.  For this second
    part the scalar type is any one whose [==] agrees with its ordering
    ([ScalarOrder]); [double] is one. *)
Theorem ordering_by_value_only :
  (∀ (V : Type) (SV : Scalar V) (a b a' b' : Evaluation V),
     (op_lt a b = Vltb (value a) (value b)
      ∧ op_gt a b = Vgtb (value a) (value b)
      ∧ op_le a b = Vleb (value a) (value b)
      ∧ op_ge a b = Vgeb (value a) (value b))
     ∧ (value a' = value a → value b' = value b →
        op_lt a' b' = op_lt a b ∧ op_gt a' b' = op_gt a b
        ∧ op_le a' b' = op_le a b ∧ op_ge a' b' = op_ge a b))
  ∧ (∀ (V : Type) (SV : Scalar V) (SO : ScalarOrder V) (vr : variant)
       (a b : Evaluation V),
       Veqb (value a) (value b) = true →
       (∃ (i : Z) (da db : V),
           derivative vr a i = Returns da ∧ derivative vr b i = Returns db
           ∧ Vneb da db = true) →
       op_le a b = true ∧ op_ge a b = true
       ∧ op_lt a b = false ∧ op_gt a b = false
       ∧ op_eq vr a b = false ∧ op_ne vr a b = true).
Proof.
  split.
  - intros V SV a b a' b'. split; [done|].
    intros Ha' Hb'. unfold op_lt, op_gt, op_le, op_ge. by rewrite Ha', Hb'.
  - intros V SV SO vr a b Heq (i & da & db & Ha & Hb & Hne).
    assert (op_eq vr a b = false) as Hop.
    { unfold derivative in Ha, Hb. case_bool_decide as Hi; [|done].
      injection Ha as <-. injection Hb as <-.
      apply op_eq_false with (Z.to_nat (Z.of_nat dstart_ + i)); [|done].
      unfold length_, dstart_. lia. }
    repeat split.
    + by apply Veqb_leb.
    + by apply Veqb_geb.
    + by apply Veqb_ltb.
    + by apply Veqb_gtb.
    + done.
    + unfold op_ne. by rewrite Hop.
Qed.

(** C8. The free operators with a scalar [a] on the left of an
    Evaluation [b]:
    - [a + b] is [b + a]: value [b.value() + a], derivatives of [b];
    - [a - b] has value [a - b.value()] and derivative [i] equal to
      [-b.derivative(i)]; the code computes it as [0.0 - b.derivative(i)],
      which is the same scalar or one that compares equal ([Vsame]) in a
      scalar type where subtracting from zero negates ([ScalarNegation]);
    - [a * b] is [b * a]: value and derivatives of [b] times [a];
    - [a / b] is [divide(a, b)]. *)
Theorem scalar_on_the_left {V : Type} `{Scalar V} `{!ScalarNegation V}
    (junk : nat → V) (vr : variant) (a : V) (b : Evaluation V) :
  well_formed vr b →
  (scalar_add junk vr a b = op_add_scalar junk vr b a
   ∧ value (scalar_add junk vr a b) = Vadd (value b) a
   ∧ ∀ i : Z, (0 ≤ i < Z.of_nat (size vr))%Z →
       derivative vr (scalar_add junk vr a b) i = derivative vr b i)
  ∧ (value (scalar_sub junk vr a b) = Vsub a (value b)
     ∧ ∀ i : Z, (0 ≤ i < Z.of_nat (size vr))%Z →
         ∃ db d, derivative vr b i = Returns db
                 ∧ derivative vr (scalar_sub junk vr a b) i = Returns d
                 ∧ d = Vsub Vzero db
                 ∧ Vsame d (Vneg db))
  ∧ (scalar_mul junk vr a b = op_mul_scalar junk vr b a
     ∧ value (scalar_mul junk vr a b) = Vmul (value b) a
     ∧ ∀ i : Z, (0 ≤ i < Z.of_nat (size vr))%Z →
         ∃ db, derivative vr b i = Returns db
               ∧ derivative vr (scalar_mul junk vr a b) i = Returns (Vmul db a))
  ∧ scalar_div vr a b = divide vr a b.
Proof.
  intros Hwf. pose proof (well_formed_pos _ _ Hwf) as Hpos.
  pose proof Hwf as Hlenb. unfold well_formed, length_ in Hlenb.
  repeat split.
  - unfold scalar_add. rewrite slots_Evaluation_copy by done.
    unfold value, add_assign_scalar, valuepos_. by rewrite at_store_eq.
  - intros i Hi. unfold scalar_add. rewrite slots_Evaluation_copy by done.
    rewrite !derivative_in_range by done. f_equal.
    unfold add_assign_scalar, valuepos_. apply at_store_ne. lia.
  - unfold scalar_sub.
    destruct (slots_sub_assign vr (Obj b) (Evaluation_constant junk vr a)) as [Hlen Hat].
    destruct (slots_Evaluation_constant junk vr a) as [Hlenc Hatc].
    unfold value, valuepos_. rewrite Hat, Hlenc.
    unfold length_. rewrite decide_True by lia. simpl.
    rewrite Hatc by (unfold length_; lia). done.
  - intros i Hi. unfold scalar_sub.
    destruct (slots_sub_assign vr (Obj b) (Evaluation_constant junk vr a)) as [Hlen Hat].
    destruct (slots_Evaluation_constant junk vr a) as [Hlenc Hatc].
    eexists _, _. rewrite !derivative_in_range by done.
    split; [done|]. split; [done|].
    assert (at_ (sub_assign vr (Obj b) (Evaluation_constant junk vr a)) (Z.to_nat i + 1)
            = Vsub Vzero (at_ b (Z.to_nat i + 1))) as ->.
    { rewrite Hat, Hlenc. unfold length_. rewrite decide_True by lia. simpl.
      rewrite Hatc by (unfold length_; lia). by rewrite decide_False by lia. }
    split; [done|]. apply Vsub_zero.
  - unfold scalar_mul. rewrite slots_Evaluation_copy by done.
    destruct (slots_mul_assign_scalar vr a b) as [Hlen Hat].
    unfold value, valuepos_. rewrite Hat. by rewrite decide_True by lia.
  - intros i Hi. unfold scalar_mul. rewrite slots_Evaluation_copy by done.
    destruct (slots_mul_assign_scalar vr a b) as [Hlen Hat].
    eexists. rewrite !derivative_in_range by done. split; [done|].
    rewrite Hat. by rewrite decide_True by lia.
Qed.

(** C10. A default-constructed Evaluation has value 0 and every
    derivative 0: it is the very object [createConstant(0)] builds, and,
    in a scalar type where [0.0 == 0.0], [operator==] finds the two equal. *)
Theorem default_constructed_is_zero {V : Type} `{Scalar V} (junk : nat → V)
    (vr : variant) :
  value (Evaluation_default (V:=V) vr) = Vzero
  ∧ (∀ i : Z, (0 ≤ i < Z.of_nat (size vr))%Z →
       derivative vr (Evaluation_default (V:=V) vr) i = Returns Vzero)
  ∧ Evaluation_default vr = createConstant junk vr Vzero
  ∧ (Veqb (Vzero (V:=V)) Vzero = true →
     op_eq vr (Evaluation_default vr) (createConstant junk vr Vzero) = true).
Proof.
  assert (Evaluation_default vr = createConstant junk vr Vzero) as Hsame.
  { unfold createConstant.
    destruct (slots_Evaluation_constant junk vr Vzero) as [Hlen Hat].
    apply Evaluation_ext.
    - by rewrite length_Evaluation_default, Hlen.
    - intros j Hj. rewrite length_Evaluation_default in Hj.
      rewrite at_Evaluation_default, Hat by done. by case_decide. }
  repeat split.
  - apply at_Evaluation_default.
  - intros i Hi. rewrite derivative_in_range by done.
    by rewrite at_Evaluation_default.
  - done.
  - intros Hzero. rewrite <-Hsame. apply op_eq_true. intros j Hj.
    rewrite at_Evaluation_default. unfold Vneb. by rewrite Hzero.
Qed.

(** ** The generator *)

Section FileNames.
Local Open Scope string_scope.

Lemma string_length_app (s t : string) :
  String.length (s +:+ t) = String.length s + String.length t.
Proof.
  induction s as [|a s IH]; [done|].
  cbv [String.append]. fold String.append. simpl. by rewrite IH.
Qed.

Lemma string_app_assoc (s t u : string) : (s +:+ t) +:+ u = s +:+ (t +:+ u).
Proof.
  induction s as [|a s IH]; [done|].
  cbv [String.append]. fold String.append. by rewrite IH.
Qed.

Lemma string_app_inj_r (s1 s2 t : string) : s1 +:+ t = s2 +:+ t → s1 = s2.
Proof.
  revert s2. induction s1 as [|a s1 IH]; intros [|b s2] Heq; [done|..].
  - apply (f_equal String.length) in Heq.
    rewrite !string_length_app in Heq. simpl in Heq. lia.
  - apply (f_equal String.length) in Heq.
    rewrite !string_length_app in Heq. simpl in Heq. lia.
  - cbv [String.append] in Heq. fold String.append in Heq.
    injection Heq as -> Heq. f_equal. by apply IH.
Qed.

Lemma pretty_N_go_head (x : N) (s : string) :
  numeral_head s → numeral_head (pretty_N_go x s).
Proof.
  revert s. induction (N.lt_wf_0 x) as [x _ IH]; intros s Hs.
  destruct (decide (x = 0)%N) as [->|Hx]; [by rewrite pretty_N_go_0|].
  rewrite pretty_N_go_step by lia. apply IH.
  - apply N.div_lt; lia.
  - left. by eexists.
Qed.

Lemma pretty_Z_head (n : Z) : numeral_head (pretty n).
Proof.
  assert (∀ p : positive, numeral_head (pretty (N.pos p))) as Hpos.
  { intros p. unfold pretty, pretty_N. rewrite decide_False by done.
    rewrite pretty_N_go_step by lia. apply pretty_N_go_head.
    left. by eexists. }
  destruct n as [|p|p]; unfold pretty, pretty_Z.
  - left. by exists 0%N.
  - apply Hpos.
  - by right.
Qed.

Lemma pretty_N_char_not (d : N) (c : ascii) :
  c ∉ ["0"; "1"; "2"; "3"; "4"; "5"; "6"; "7"; "8"; "9"]%char →
  c ≠ pretty_N_char d.
Proof.
  intros Hc ->. apply Hc. unfold pretty_N_char.
  repeat case_match; set_solver.
Qed.

(** The name of a specialisation is neither the name of the generic
    header nor the name of the header that includes the specialisations. *)
Lemma specialization_file_fresh (n : Z) :
  specialization_file n ≠ "opm/material/densead/Evaluation.hpp"
  ∧ specialization_file n ≠ "opm/material/densead/EvaluationSpecializations.hpp".
Proof.
  unfold specialization_file. pose proof (pretty_Z_head n) as Hhead.
  destruct (pretty n) as [|c s]; [done|].
  split; intros Heq; cbv [String.append] in Heq; injection Heq as Hc _;
    (destruct Hhead as [[d ->]| ->]; [|done]);
    symmetry in Hc; revert Hc; apply pretty_N_char_not;
    rewrite !elem_of_cons, elem_of_nil; intros Hin;
    repeat (destruct Hin as [Hin|Hin]; [done|]); done.
Qed.

#[global] Instance specialization_file_inj : Inj (=) (=) specialization_file.
Proof.
  intros n n' Heq. unfold specialization_file in Heq.
  apply (inj (String.app _)) in Heq. apply string_app_inj_r in Heq.
  by apply (inj pretty) in Heq.
Qed.
End FileNames.

(** Files with distinct names can be written in any order: the result
    is the new files laid over the old ones. *)
Lemma write_all_union (out : list (string * string)) (fs : gmap string string) :
  NoDup out.*1 → write_all out fs = list_to_map out ∪ fs.
Proof.
  unfold write_all. induction out as [|[f c] out IH] using rev_ind; intros Hnd.
  - simpl. by rewrite (left_id_L ∅ (∪)).
  - rewrite fmap_app, NoDup_app in Hnd. destruct Hnd as (Hnd & Hfresh & _).
    rewrite foldl_snoc, IH by done. simpl.
    rewrite list_to_map_snoc.
    + by rewrite insert_union_l.
    + intros Hin. apply (Hfresh f Hin). by apply list_elem_of_singleton.
Qed.

Section GeneratorRuns.
Variable python_int : string → option Z.
Variable basename : string → string.
Variable render_specialization : Z → string → string.
Variable can_open : string → bool.

Local Abbreviation step :=
  (generate_specialization basename render_specialization can_open).
Local Abbreviation run :=
  (main python_int basename render_specialization can_open).
Local Abbreviation outputs := (generated_files render_specialization).
Local Abbreviation after_specializations :=
  (after_specializations basename render_specialization).
Local Abbreviation completed_state :=
  (completed_state basename render_specialization).
Local Abbreviation specialization_pair argv0 :=
  (λ n : Z, (specialization_file n, render_specialization n (basename argv0))).

Lemma after_specializations_nil argv0 st : after_specializations argv0 [] st = st.
Proof. unfold after_specializations. simpl. rewrite !app_nil_r. by destruct st. Qed.

Lemma after_specializations_cons argv0 n ns st :
  can_open (specialization_file n) = true →
  step argv0 st n = Completed (after_specializations argv0 [n] st)
  ∧ after_specializations argv0 ns (after_specializations argv0 [n] st)
    = after_specializations argv0 (n :: ns) st.
Proof.
  intros Hopen. split.
  - unfold generate_specialization, write_file. simpl. by rewrite Hopen.
  - unfold after_specializations. simpl. by rewrite <-!app_assoc.
Qed.

(** The loop over [range(1, maxDerivs + 1)] when every file can be opened. *)
Lemma for_each_completes argv0 (ns : list Z) (st : process) :
  (∀ n, n ∈ ns → can_open (specialization_file n) = true) →
  for_each (step argv0) st ns = Completed (after_specializations argv0 ns st).
Proof.
  revert st. induction ns as [|n ns IH]; intros st Hopen.
  - by rewrite after_specializations_nil.
  - destruct (after_specializations_cons argv0 n ns st) as [Hstep Hafter].
    { apply Hopen. by left. }
    cbn [for_each]. rewrite Hstep. cbn [and_then].
    rewrite IH; [by rewrite Hafter|]. intros k Hk. apply Hopen. by right.
Qed.


Lemma for_each_completed_inv argv0 (ns : list Z) (st st' : process) :
  for_each (step argv0) st ns = Completed st' →
  ∀ n, n ∈ ns → can_open (specialization_file n) = true.
Proof.
  revert st. induction ns as [|n ns IH]; intros st Hrun k Hk.
  - by apply elem_of_nil in Hk.
  - cbn [for_each] in Hrun.
    destruct (can_open (specialization_file n)) eqn:Hopen.
    + destruct (after_specializations_cons argv0 n [] st Hopen) as [Hstep _].
      rewrite Hstep in Hrun. cbn [and_then] in Hrun.
      apply elem_of_cons in Hk as [->|Hk]; [done|]. by eapply IH.
    + unfold generate_specialization, write_file in Hrun. simpl in Hrun.
      by rewrite Hopen in Hrun.
Qed.


Lemma generated_files_names maxDerivs scriptName :
  (outputs maxDerivs scriptName).*1
  = ["opm/material/densead/Evaluation.hpp"]
    ++ (specialization_file <$> seqZ 1 maxDerivs)
    ++ ["opm/material/densead/EvaluationSpecializations.hpp"].
Proof.
  unfold generated_files. rewrite !fmap_app, <-list_fmap_compose. done.
Qed.

Lemma generated_files_NoDup maxDerivs scriptName :
  NoDup (outputs maxDerivs scriptName).*1.
Proof.
  rewrite generated_files_names. simpl. apply NoDup_cons. split.
  - rewrite elem_of_app, list_elem_of_fmap, list_elem_of_singleton.
    intros [(n & Heq & _)|Heq]; [|done].
    symmetry in Heq. by apply specialization_file_fresh in Heq.
  - apply NoDup_app. split; [|split].
    + apply (NoDup_fmap_2 _), NoDup_seqZ.
    + intros f (n & -> & _)%list_elem_of_fmap Hin%list_elem_of_singleton.
      by apply specialization_file_fresh in Hin.
    + apply NoDup_singleton.
Qed.

(** A run whose bound is read and whose files can all be opened
    completes, in a state that is a function of the bound, the script name
    and the files it started from. *)
Lemma main_completes argv0 args fs maxDerivs :
  read_maxDerivs python_int (argv0 :: args) = Some maxDerivs →
  (∀ f, f ∈ (outputs maxDerivs (basename argv0)).*1 → can_open f = true) →
  run argv0 args fs = Completed (completed_state argv0 maxDerivs fs).
Proof.
  intros Hread Hopen. rewrite generated_files_names in Hopen.
  unfold main. rewrite Hread. unfold write_file at 1.
  rewrite Hopen by (rewrite elem_of_app, list_elem_of_singleton; by left).
  cbn [and_then]. unfold python_range.
  replace (maxDerivs + 1 - 1)%Z with maxDerivs by lia.
  rewrite for_each_completes.
  2:{ intros n Hn. apply Hopen. rewrite !elem_of_app, list_elem_of_fmap. eauto. }
  cbn [and_then]. unfold write_file.
  rewrite Hopen by (rewrite !elem_of_app, !list_elem_of_singleton; by right; right).
  f_equal. unfold completed_state, after_specializations, print.
  cbn -[list_to_map union write_all generated_files]. f_equal.
  rewrite <-write_all_union by apply generated_files_NoDup.
  unfold generated_files, write_all. cbn [app foldl]. by rewrite foldl_snoc.
Qed.

(** Conversely, a run completes only when its bound is read and when
    every file it generates can be opened. *)
Lemma main_completed_inv argv0 args fs st :
  run argv0 args fs = Completed st →
  ∃ maxDerivs,
    read_maxDerivs python_int (argv0 :: args) = Some maxDerivs
    ∧ (∀ f, f ∈ (outputs maxDerivs (basename argv0)).*1 → can_open f = true)
    ∧ st = completed_state argv0 maxDerivs fs.
Proof.
  intros Hrun.
  destruct (read_maxDerivs python_int (argv0 :: args)) as [maxDerivs|] eqn:Hread.
  2:{ unfold main in Hrun. by rewrite Hread in Hrun. }
  exists maxDerivs. split; [done|].
  assert (∀ f, f ∈ (outputs maxDerivs (basename argv0)).*1 → can_open f = true)
    as Hopen.
  { pose proof Hrun as Hrun0. unfold main in Hrun. rewrite Hread in Hrun.
    unfold write_file at 1 in Hrun.
    destruct (can_open "opm/material/densead/Evaluation.hpp") eqn:Hgeneric; [|done].
    cbn [and_then] in Hrun.
    destruct (for_each _ _ _) as [st1|e st1] eqn:Hloop; [|done].
    cbn [and_then] in Hrun. unfold write_file in Hrun.
    destruct (can_open "opm/material/densead/EvaluationSpecializations.hpp")
      eqn:Hinclude; [|done].
    unfold python_range in Hloop.
    replace (maxDerivs + 1 - 1)%Z with maxDerivs in Hloop by lia.
    pose proof (for_each_completed_inv _ _ _ _ Hloop) as Hspecs.
    intros f. rewrite generated_files_names.
    rewrite !elem_of_app, !list_elem_of_singleton, list_elem_of_fmap.
    intros [->|[(n & -> & Hn)| ->]]; auto. }
  split; [done|]. rewrite (main_completes _ _ _ _ Hread Hopen) in Hrun.
  by injection Hrun.
Qed.
End GeneratorRuns.

(** C9. Two completed runs of the generator with the same bound and the
    same script name, started on any two file systems, write the same
    files with the same contents, byte for byte: the generic header, one
    specialisation per [N = 1 .. maxDerivs] (all names distinct), and the
    header that includes the specialisations.  That header is its fixed
    opening with the script name, then exactly one line
    [#include <opm/material/densead/EvaluationN.hpp>] per [N], for
    [N = 1, 2, ..., maxDerivs] in this order, then its closing [#endif].
    Every other file is left as it was, so a second run on the result of
    the first changes nothing.  (The text of the class template is rendered
    by jinja2, taken here as a function of [numDerivs] and [scriptName];
    the including header is rendered in full.  A run that does not complete,
    because [int] or [open] raised, is not covered.) *)
Theorem generator_deterministic (python_int : string → option Z)
    (basename : string → string) (render_specialization : Z → string → string)
    (can_open can_open' : string → bool)
    (argv0 argv0' : string) (args args' : list string)
    (fs fs' : gmap string string) (st st' : process) :
  main python_int basename render_specialization can_open argv0 args fs
    = Completed st →
  main python_int basename render_specialization can_open' argv0' args' fs'
    = Completed st' →
  read_maxDerivs python_int (argv0 :: args) = read_maxDerivs python_int (argv0' :: args') →
  basename argv0 = basename argv0' →
  ∃ maxDerivs : Z,
    read_maxDerivs python_int (argv0 :: args) = Some maxDerivs
    ∧ let out := generated_files render_specialization maxDerivs (basename argv0) in
      NoDup out.*1
      ∧ out.*1 = ["opm/material/densead/Evaluation.hpp"]
                 ++ (specialization_file <$> seqZ 1 maxDerivs)
                 ++ ["opm/material/densead/EvaluationSpecializations.hpp"]
      ∧ files st = list_to_map out ∪ fs
      ∧ files st' = list_to_map out ∪ fs'
      ∧ (∀ f c, (f, c) ∈ out → files st !! f = Some c ∧ files st' !! f = Some c)
      ∧ (∀ f, f ∉ out.*1 → files st !! f = fs !! f)
      ∧ (fs' = files st → files st' = files st)
      ∧ fileNames st = specialization_file <$> seqZ 1 maxDerivs
      ∧ (∀ i : nat, (Z.of_nat i < maxDerivs)%Z →
           fileNames st !! i = Some (specialization_file (1 + Z.of_nat i)))
      ∧ files st !! "opm/material/densead/EvaluationSpecializations.hpp"
        = Some (render_includeSpecializations (fileNames st) (basename argv0))
      ∧ fileNames st = fileNames st'
      ∧ stdout st = stdout st'
      ∧ ∃ lines : list string,
          length lines = Z.to_nat maxDerivs
          ∧ (∀ i : nat, (Z.of_nat i < maxDerivs)%Z →
               lines !! i
               = Some ("#include <opm/material/densead/Evaluation"
                       +:+ pretty (1 + Z.of_nat i)%Z +:+ ".hpp>" +:+ newline))
          ∧ files st !! "opm/material/densead/EvaluationSpecializations.hpp"
            = Some (includeSpecializations_head +:+ dquote +:+ basename argv0
                    +:+ dquote +:+ includeSpecializations_guard
                    +:+ String.concat "" lines
                    +:+ newline
                    +:+ "#endif // OPM_DENSEAD_EVALUATION_SPECIALIZATIONS_HPP").
Proof.
  intros Hrun Hrun' Hbound Hname.
  apply main_completed_inv in Hrun as (maxDerivs & Hread & _ & ->).
  apply main_completed_inv in Hrun' as (maxDerivs' & Hread' & _ & ->).
  rewrite <-Hbound, Hread in Hread'. injection Hread' as <-.
  unfold completed_state. rewrite <-Hname.
  exists maxDerivs. split; [done|].
  set (out := generated_files render_specialization maxDerivs (basename argv0)).
  pose proof (generated_files_NoDup render_specialization maxDerivs (basename argv0))
    as Hnd. fold out in Hnd.
  assert (∀ (f c : string) (m : gmap string string),
    (f, c) ∈ out → (list_to_map out ∪ m) !! f = Some c) as Hin.
  { intros f c m Hfc. apply lookup_union_Some_l.
    by apply elem_of_list_to_map_1. }
  assert ((("opm/material/densead/EvaluationSpecializations.hpp",
            render_includeSpecializations (specialization_file <$> seqZ 1 maxDerivs)
              (basename argv0)) : string * string) ∈ out) as Hinclude.
  { unfold out, generated_files.
    rewrite !elem_of_app, !list_elem_of_singleton. right; right; done. }
  cbn [files fileNames stdout]. fold out.
  split; [done|]. split; [apply generated_files_names|].
  split; [done|]. split; [done|]. split; [by split; apply Hin|].
  split; [|split; [|split; [|split; [|split; [|split; [|split]]]]]].
  - intros f Hf. apply lookup_union_r.
    exact (not_elem_of_list_to_map_1 out f Hf).
  - intros ->. by rewrite (assoc_L (∪)), (idemp_L (∪)).
  - done.
  - intros i Hi. by rewrite list_lookup_fmap, (lookup_seqZ_lt 1 maxDerivs i Hi).
  - by apply Hin.
  - done.
  - done.
  - exists ((λ fileName, "#include <" +:+ fileName +:+ ">" +:+ newline)
            <$> (specialization_file <$> seqZ 1 maxDerivs)).
    split; [by rewrite !length_fmap, length_seqZ|]. split.
    + intros i Hi.
      rewrite !list_lookup_fmap, (lookup_seqZ_lt 1 maxDerivs i Hi).
      cbn [fmap option_fmap option_map]. f_equal.
      unfold specialization_file. by rewrite !string_app_assoc.
    + by apply Hin.
Qed.

(** ** The theorems at sample inputs *)

(** The two variants, run on symbolic scalars, build the same operation
    trees; the product rule reads its operands before it overwrites them,
    also in [x *= x]. *)
Example mul_assign_operations :
  mul_assign (Generic 2) (Obj symbolic_y) symbolic_x
  = mkEvaluation
      [SMul (SInput 0) (SInput 3);
       SAdd (SMul (SInput 1) (SInput 3)) (SMul (SInput 4) (SInput 0));
       SAdd (SMul (SInput 2) (SInput 3)) (SMul (SInput 5) (SInput 0))]
  ∧ mul_assign (Specialization 2) This symbolic_x
    = mkEvaluation
        [SMul (SInput 0) (SInput 0);
         SAdd (SMul (SInput 1) (SInput 0)) (SMul (SInput 1) (SInput 0));
         SAdd (SMul (SInput 2) (SInput 0)) (SMul (SInput 2) (SInput 0))].
Proof. split; reflexivity. Qed.

Lemma product_rule_witness :
  well_formed (Specialization 2) sample_u
  ∧ value (mul_assign (Specialization 2) (Obj sample_v) sample_u) = 12%float.
Proof.
  split; [reflexivity|].
  exact (proj1 (proj1 (proj1 product_rule float _ sample_junk (Specialization 2)
                         sample_u (Obj sample_v) eq_refl))).
Defined.

Lemma quotient_rule_witness :
  well_formed (Generic 2) sample_u
  ∧ value (div_assign (Generic 2) (Obj sample_v) sample_u) = 0.75%float.
Proof.
  split; [reflexivity|].
  exact (proj1 (proj1 (proj1 quotient_rule float _ sample_junk (Generic 2)
                         sample_u (Obj sample_v) eq_refl))).
Defined.

Lemma specialization_equals_generic_witness :
  well_formed (Generic 2) symbolic_x
  ∧ Evaluation_copy SIndeterminate (Generic 2) symbolic_x
    = Evaluation_copy (λ slot, SIndeterminate (slot + 100)) (Specialization 2) symbolic_x
  ∧ mul_assign (Generic 2) (Obj symbolic_y) symbolic_x
    = mul_assign (Specialization 2) (Obj symbolic_y) symbolic_x
  ∧ op_div SIndeterminate (Generic 2) symbolic_x symbolic_y
    = op_div (λ slot, SIndeterminate (slot + 100)) (Specialization 2) symbolic_x symbolic_y.
Proof.
  split; [reflexivity|].
  destruct (specialization_equals_generic SIndeterminate
              (λ slot, SIndeterminate (slot + 100)) 2 symbolic_x symbolic_y
              (Obj symbolic_y) SOne 1 eq_refl)
    as (Hctor & _ & Hassign & _ & Hbinary & _).
  split; [apply Hctor|]. split; [apply Hassign|]. apply Hbinary.
Defined.

Lemma variable_derivatives_witness :
  (∃ e, createVariable sample_junk (Specialization 3) 5%float 1 = Returns e
        ∧ derivative (Specialization 3) e 1 = Returns 1%float
        ∧ derivative (Specialization 3) e 2 = Returns 0%float)
  ∧ createVariable sample_junk (Specialization 3) 5%float 3 = AssertionFailure.
Proof.
  pose proof (variable_derivatives sample_junk (Specialization 3) 5%float 1) as [Hin _].
  pose proof (variable_derivatives sample_junk (Specialization 3) 5%float 3) as [_ Hout].
  split.
  - destruct (Hin ltac:(simpl; lia)) as (e & Hcreate & _ & _ & _ & Hone & Hzero).
    exists e. split; [exact Hcreate|]. split; [exact Hone|].
    apply Hzero; simpl; lia.
  - apply Hout. simpl. lia.
Defined.

Lemma assign_scalar_clears_witness :
  well_formed (Specialization 2) sample_v
  ∧ value (assign_scalar (Specialization 2) 9%float sample_v) = 9%float
  ∧ derivative (Specialization 2) (assign_scalar (Specialization 2) 9%float sample_v) 1
    = Returns 0%float.
Proof.
  split; [reflexivity|].
  destruct (assign_scalar_clears (Specialization 2) sample_v 9%float eq_refl)
    as (_ & Hvalue & Hder).
  split; [exact Hvalue|]. apply Hder. simpl. lia.
Defined.

Lemma ordering_by_value_only_witness :
  (Veqb (value sample_a) (value sample_b) = true
   ∧ op_le sample_a sample_b = true ∧ op_ge sample_a sample_b = true
   ∧ op_lt sample_a sample_b = false ∧ op_gt sample_a sample_b = false
   ∧ op_eq (Generic 2) sample_a sample_b = false)
  ∧ (value sample_a = value sample_w
     ∧ op_lt sample_a sample_u = op_lt sample_w sample_u
     ∧ op_lt sample_w sample_u = true).
Proof.
  destruct ordering_by_value_only as [Hvalues Hequal].
  split.
  - split; [reflexivity|].
    destruct (Hequal float _ double_order (Generic 2) sample_a sample_b eq_refl)
      as (Hle & Hge & Hlt & Hgt & Heq & _).
    { exists 0%Z, 1%float, 0%float. repeat split. }
    repeat (split; [assumption|]). assumption.
  - split; [reflexivity|].
    destruct (Hvalues float _ sample_w sample_u sample_a sample_u) as [Hpin Hsame].
    split; [exact (proj1 (Hsame eq_refl eq_refl))|].
    rewrite (proj1 Hpin). reflexivity.
Defined.

Lemma scalar_on_the_left_witness :
  well_formed (Specialization 2) sample_v
  ∧ value (scalar_sub sample_junk (Specialization 2) 1%float sample_v) = (-3)%float
  ∧ ∃ d, derivative (Specialization 2)
           (scalar_sub sample_junk (Specialization 2) 1%float sample_v) 0 = Returns d
         ∧ Vsame d (Vneg 0%float).
Proof.
  split; [reflexivity|].
  destruct (scalar_on_the_left (ScalarNegation0:=double_negation) sample_junk
              (Specialization 2) 1%float sample_v eq_refl)
    as (_ & (Hvalue & Hder) & _).
  split; [exact Hvalue|].
  destruct (Hder 0%Z ltac:(simpl; lia)) as (db & d & Hdb & Hd & _ & Hsame).
  exists d. split; [exact Hd|]. injection Hdb as <-. exact Hsame.
Defined.

Lemma default_constructed_is_zero_witness :
  Veqb 0%float 0%float = true
  ∧ op_eq (Specialization 3) (Evaluation_default (Specialization 3))
      (createConstant sample_junk (Specialization 3) 0%float) = true.
Proof.
  split; [reflexivity|].
  destruct (default_constructed_is_zero sample_junk (Specialization 3))
    as (_ & _ & _ & Heq).
  apply Heq. reflexivity.
Defined.

Lemma generator_deterministic_witness :
  ∃ st st',
    main sample_int id sample_render (λ _, true)
      "bin/genEvalSpecializations.py" ["2"] ∅ = Completed st
    ∧ main sample_int id sample_render (λ _, true)
        "bin/genEvalSpecializations.py" ["2"] (files st) = Completed st'
    ∧ files st' = files st
    ∧ fileNames st = ["opm/material/densead/Evaluation1.hpp";
                      "opm/material/densead/Evaluation2.hpp"].
Proof.
  destruct (main sample_int id sample_render (λ _, true)
              "bin/genEvalSpecializations.py" ["2"] ∅)
    as [st|e st] eqn:Hrun; [|discriminate Hrun].
  destruct (main sample_int id sample_render (λ _, true)
              "bin/genEvalSpecializations.py" ["2"] (files st))
    as [st'|e st'] eqn:Hrun'; [|discriminate Hrun'].
  exists st, st'. split; [reflexivity|]. split; [exact Hrun'|].
  destruct (generator_deterministic sample_int id sample_render (λ _, true) (λ _, true)
              "bin/genEvalSpecializations.py" "bin/genEvalSpecializations.py"
              ["2"] ["2"] ∅ (files st) st st' Hrun Hrun' eq_refl eq_refl)
    as (maxDerivs & Hbound & _ & _ & _ & _ & _ & _ & Hsame & Hnames & _).
  split; [by apply Hsame|].
  injection Hbound as <-. exact Hnames.
Defined.

(** * Further properties of the class *)

Section MoreMembers.
Context {V : Type} `{Scalar V}.
Implicit Types (e this : Evaluation V) (other : operand V) (v : variant).

Lemma Evaluation_constant_storage (junk junk' : nat → V) v c :
  Evaluation_constant junk v c = Evaluation_constant junk' v c.
Proof.
  destruct (slots_Evaluation_constant junk v c) as [Hlen Hat].
  destruct (slots_Evaluation_constant junk' v c) as [Hlen' Hat'].
  apply Evaluation_ext; [by rewrite Hlen, Hlen'|].
  intros j Hj. rewrite Hlen in Hj. by rewrite Hat, Hat'.
Qed.

(** A derivative read only looks at the slot of its index. *)
Lemma derivative_ext v e e' (i : Z) :
  ((0 ≤ i < Z.of_nat (size v))%Z → at_ e (Z.to_nat i + 1) = at_ e' (Z.to_nat i + 1)) →
  derivative v e i = derivative v e' i.
Proof.
  intros Hat. destruct (decide (0 ≤ i < Z.of_nat (size v))%Z) as [Hi|Hi].
  - rewrite !derivative_in_range by done. f_equal. by apply Hat.
  - by rewrite !derivative_out_of_range.
Qed.

Lemma length_setValue c this : length (data_ (setValue c this)) = length (data_ this).
Proof. apply length_store. Qed.

(** The by-reference product with slot 0 as the factor: slot 0 is squared
    first, and every later statement reads the squared value. *)
Lemma slots_mul_assign_scalar_self v this :
  0 < length (data_ this) →
  let w := Vmul (value this) (value this) in
  length (data_ (mul_assign_scalar_ref v ValueOfThis this)) = length (data_ this) ∧
  at_ (mul_assign_scalar_ref v ValueOfThis this) 0 = w ∧
  ∀ j, 1 ≤ j → at_ (mul_assign_scalar_ref v ValueOfThis this) j
       = if decide (j < size v + 1 ∧ j < length (data_ this))
         then Vmul (at_ this j) w else at_ this j.
Proof.
  intros Hpos w. unfold mul_assign_scalar_ref. rewrite loop_all.
  set (body := λ (i : nat) (this0 : Evaluation V),
    store i (Vmul (at_ this0 i) (scalar_read this0 ValueOfThis)) this0).
  assert (∀ n,
    length (data_ (unrolled (seq 0 (S n)) body this)) = length (data_ this) ∧
    at_ (unrolled (seq 0 (S n)) body this) 0 = w ∧
    ∀ j, 1 ≤ j → at_ (unrolled (seq 0 (S n)) body this) j
         = if decide (j < S n ∧ j < length (data_ this))
           then Vmul (at_ this j) w else at_ this j) as Hn.
  { induction n as [|n (IHlen & IH0 & IHat)].
    - change (unrolled (seq 0 1) body this) with (body 0 this).
      unfold body, scalar_read, w, value, valuepos_.
      split; [by rewrite length_store|]. split; [by apply at_store_eq|].
      intros j Hj. rewrite at_store_ne by lia. rewrite decide_False by lia. done.
    - rewrite seq_S, unrolled_snoc. change (0 + S n) with (S n).
      set (prev := unrolled (seq 0 (S n)) body this) in *.
      unfold body, scalar_read, valuepos_.
      rewrite IH0. split; [by rewrite length_store|]. split.
      + by rewrite at_store_ne by lia.
      + intros j Hj. rewrite at_store, IHlen, !IHat by lia.
        repeat case_decide; try done; try lia.
        destruct_and?; subst. done. }
  unfold range. replace (size v + 1 - 0) with (S (size v)) by lia.
  destruct (Hn (size v)) as (Hlen & H0 & Hat). split; [done|]. split; [done|].
  intros j Hj. rewrite Hat by done. repeat case_decide; try done; lia.
Qed.

(** The by-reference product with slot [p] of the object as the factor:
    the slots before [p] see its old content [d], slot [p] becomes [d * d],
    and the slots after it see [d * d]. *)
Lemma slots_mul_assign_scalar_slot v this (other : scalar_operand V) (p : nat) :
  (∀ this0 : Evaluation V, scalar_read this0 other = at_ this0 p) →
  p < length (data_ this) →
  let d := at_ this p in
  length (data_ (mul_assign_scalar_ref v other this)) = length (data_ this) ∧
  ∀ j, at_ (mul_assign_scalar_ref v other this) j
       = if decide (j < size v + 1 ∧ j < length (data_ this))
         then (if decide (j < p) then Vmul (at_ this j) d
               else if decide (j = p) then Vmul d d
               else Vmul (at_ this j) (Vmul d d))
         else at_ this j.
Proof.
  intros Hread Hp d. unfold mul_assign_scalar_ref. rewrite loop_all.
  set (body := λ (i : nat) (this0 : Evaluation V),
    store i (Vmul (at_ this0 i) (scalar_read this0 other)) this0).
  assert (∀ n,
    length (data_ (unrolled (seq 0 n) body this)) = length (data_ this) ∧
    ∀ j, at_ (unrolled (seq 0 n) body this) j
         = if decide (j < n ∧ j < length (data_ this))
           then (if decide (j < p) then Vmul (at_ this j) d
                 else if decide (j = p) then Vmul d d
                 else Vmul (at_ this j) (Vmul d d))
           else at_ this j) as Hn.
  { induction n as [|n (IHlen & IHat)].
    - split; [done|]. intros j. by rewrite decide_False by lia.
    - rewrite seq_S, unrolled_snoc. change (0 + n) with n.
      set (prev := unrolled (seq 0 n) body this) in *.
      unfold body. rewrite Hread. split; [by rewrite length_store|].
      intros j. rewrite at_store, IHlen, !IHat.
      repeat case_decide; try done; try lia; destruct_and?; subst; done. }
  unfold range. replace (size v + 1 - 0) with (size v + 1) by lia.
  apply Hn.
Qed.
End MoreMembers.

(** X1. The copy constructor of either variant returns its operand: the
    unrolled one assigns every slot of the storage it starts from, so
    nothing of what the storage held is left. *)
Theorem copy_constructor_copies {V : Type} `{Scalar V} (junk : nat → V)
    (vr : variant) (other : Evaluation V) :
  well_formed vr other →
  Evaluation_copy junk vr other = other
  ∧ well_formed vr (Evaluation_copy junk vr other).
Proof.
  intros Hwf. rewrite slots_Evaluation_copy by done. done.
Qed.

(** X2. [createConstant(c)] and the constructor from a scalar: the value
    is [c], every derivative is 0, the object has [size + 1] slots, and it
    does not depend on what the storage held. *)
Theorem constant_has_zero_derivatives {V : Type} `{Scalar V} (junk junk' : nat → V)
    (vr : variant) (c : V) :
  value (createConstant junk vr c) = c
  ∧ (∀ i : Z, (0 ≤ i < Z.of_nat (size vr))%Z →
       derivative vr (createConstant junk vr c) i = Returns Vzero)
  ∧ well_formed vr (createConstant junk vr c)
  ∧ createConstant junk vr c = createConstant junk' vr c
  ∧ Evaluation_constant junk vr c = createConstant junk vr c.
Proof.
  unfold createConstant.
  destruct (slots_Evaluation_constant junk vr c) as [Hlen Hat].
  split; [|split; [|split; [|split]]].
  - unfold value, valuepos_. rewrite Hat by (unfold length_; lia). done.
  - intros i Hi. rewrite derivative_in_range by done. f_equal.
    rewrite Hat by (unfold length_; lia). by rewrite decide_False by lia.
  - exact Hlen.
  - apply Evaluation_constant_storage.
  - done.
Qed.

(** X3. [this += other] and [this -= other] with an Evaluation on the
    right work slot by slot on the value and on every derivative, each
    slot from its content before the call; [x += x] doubles and [x -= x]
    subtracts every slot from itself. *)
Theorem add_sub_assign_slotwise {V : Type} `{Scalar V} (vr : variant)
    (this : Evaluation V) (other : operand V) :
  well_formed vr this →
  (value (add_assign vr other this) = Vadd (value this) (value (deref this other))
   ∧ ∀ i : Z, (0 ≤ i < Z.of_nat (size vr))%Z →
       ∃ du dv, derivative vr this i = Returns du
                ∧ derivative vr (deref this other) i = Returns dv
                ∧ derivative vr (add_assign vr other this) i = Returns (Vadd du dv))
  ∧ (value (sub_assign vr other this) = Vsub (value this) (value (deref this other))
     ∧ ∀ i : Z, (0 ≤ i < Z.of_nat (size vr))%Z →
         ∃ du dv, derivative vr this i = Returns du
                  ∧ derivative vr (deref this other) i = Returns dv
                  ∧ derivative vr (sub_assign vr other this) i = Returns (Vsub du dv)).
Proof.
  intros Hwf. pose proof Hwf as Hlen. unfold well_formed, length_ in Hlen.
  destruct (slots_add_assign vr other this) as [_ Hadd].
  destruct (slots_sub_assign vr other this) as [_ Hsub].
  split; split.
  - unfold value, valuepos_. rewrite Hadd, decide_True by lia. by rewrite at_deref.
  - intros i Hi. eexists _, _. rewrite !derivative_in_range by done.
    split; [done|]. split; [done|]. f_equal.
    rewrite Hadd, decide_True by lia. by rewrite at_deref.
  - unfold value, valuepos_. rewrite Hsub, decide_True by lia. by rewrite at_deref.
  - intros i Hi. eexists _, _. rewrite !derivative_in_range by done.
    split; [done|]. split; [done|]. f_equal.
    rewrite Hsub, decide_True by lia. by rewrite at_deref.
Qed.

(** X4. Adding or subtracting a scalar, as [+=], [-=] or as the binary
    operator, changes the value only: every derivative read, in range or
    not, gives what it gave before. *)
Theorem scalar_add_sub_keep_derivatives {V : Type} `{Scalar V} (junk : nat → V)
    (vr : variant) (this : Evaluation V) (c : V) :
  well_formed vr this →
  (value (add_assign_scalar c this) = Vadd (value this) c
   ∧ value (sub_assign_scalar c this) = Vsub (value this) c
   ∧ value (op_add_scalar junk vr this c) = Vadd (value this) c
   ∧ value (op_sub_scalar junk vr this c) = Vsub (value this) c)
  ∧ ∀ i : Z,
      derivative vr (add_assign_scalar c this) i = derivative vr this i
      ∧ derivative vr (sub_assign_scalar c this) i = derivative vr this i
      ∧ derivative vr (op_add_scalar junk vr this c) i = derivative vr this i
      ∧ derivative vr (op_sub_scalar junk vr this c) i = derivative vr this i.
Proof.
  intros Hwf. pose proof (well_formed_pos _ _ Hwf) as Hpos.
  unfold op_add_scalar, op_sub_scalar. rewrite slots_Evaluation_copy by done.
  unfold add_assign_scalar, sub_assign_scalar, value, valuepos_.
  split.
  - by rewrite !at_store_eq.
  - intros i. repeat split; apply derivative_ext; intros Hi;
      apply at_store_ne; lia.
Qed.

(** X5. [operator*=(const RhsValueType&)] multiplies every slot by what
    its argument refers to at that moment.  With a scalar that is no slot
    of the object (and in the binary [x * c], which works on a copy) the
    value and every derivative are multiplied by [c].  With
    [x *= x.derivative(k)], where the argument is a derivative slot of [x]
    holding [dk], the value and the derivatives before [k] are multiplied by
    [dk], derivative [k] becomes [dk * dk], and the derivatives after [k] are
    multiplied by [dk * dk].  Dividing by a scalar [c] multiplies the value
    and every derivative by [1/c], which is computed once, before any store. *)
Theorem scalar_mul_div_scale_all {V : Type} `{Scalar V} (junk : nat → V)
    (vr : variant) (this : Evaluation V) (c : V) :
  well_formed vr this →
  let inv := Vdiv Vone c in
  ((value (mul_assign_scalar_ref vr (Separate c) this) = Vmul (value this) c
    ∧ value (op_mul_scalar junk vr this c) = Vmul (value this) c
    ∧ value (div_assign_scalar vr c this) = Vmul (value this) inv
    ∧ value (op_div_scalar junk vr this c) = Vmul (value this) inv)
   ∧ ∀ i : Z, (0 ≤ i < Z.of_nat (size vr))%Z →
       ∃ d, derivative vr this i = Returns d
            ∧ derivative vr (mul_assign_scalar_ref vr (Separate c) this) i
              = Returns (Vmul d c)
            ∧ derivative vr (op_mul_scalar junk vr this c) i = Returns (Vmul d c)
            ∧ derivative vr (div_assign_scalar vr c this) i = Returns (Vmul d inv)
            ∧ derivative vr (op_div_scalar junk vr this c) i = Returns (Vmul d inv))
  ∧ ∀ k : nat, k < size vr →
      ∃ dk, derivative vr this (Z.of_nat k) = Returns dk
            ∧ value (mul_assign_scalar_ref vr (DerivativeOfThis k) this)
              = Vmul (value this) dk
            ∧ ∀ i : nat, i < size vr →
                ∃ d, derivative vr this (Z.of_nat i) = Returns d
                     ∧ derivative vr
                         (mul_assign_scalar_ref vr (DerivativeOfThis k) this)
                         (Z.of_nat i)
                       = Returns (if decide (i < k) then Vmul d dk
                                  else if decide (i = k) then Vmul dk dk
                                  else Vmul d (Vmul dk dk)).
Proof.
  intros Hwf inv. pose proof Hwf as Hlen. unfold well_formed, length_ in Hlen.
  split.
  - unfold op_mul_scalar, op_div_scalar. rewrite slots_Evaluation_copy by done.
    fold (mul_assign_scalar vr c this).
    destruct (slots_mul_assign_scalar vr c this) as [_ Hmul].
    destruct (slots_div_assign_scalar vr c this) as [_ Hdiv].
    split.
    + unfold value, valuepos_. rewrite Hmul, Hdiv, !decide_True by lia. done.
    + intros i Hi. eexists. rewrite !derivative_in_range by done.
      rewrite Hmul, Hdiv, !decide_True by lia. done.
  - intros k Hk.
    destruct (slots_mul_assign_scalar_slot vr this (DerivativeOfThis k) (dstart_ + k))
      as [_ Hat]; [done|unfold dstart_; lia|].
    unfold dstart_ in Hat.
    eexists. rewrite derivative_in_range by lia. split; [done|].
    rewrite Nat2Z.id. replace (k + 1) with (1 + k) by lia. split.
    + unfold value, valuepos_. rewrite Hat.
      rewrite decide_True by lia. by rewrite decide_True by lia.
    + intros i Hi. eexists. rewrite !derivative_in_range by lia.
      split; [done|]. f_equal. rewrite Nat2Z.id, Hat.
      rewrite decide_True by lia.
      repeat case_decide; try done; lia.
Qed.

(** X6. [operator*=(const RhsValueType&)] reads its argument in every
    statement.  With an argument of its own this is the scaling by [c].
    With [x *= x.value()], where the argument is slot 0 of [x] itself, the
    value becomes [v * v] and every derivative is multiplied by that new
    value [v * v], not by [v]; the binary [x * x.value()] works on a copy
    and multiplies by [v]. *)
Theorem mul_assign_scalar_reads_updated_value {V : Type} `{Scalar V}
    (junk : nat → V) (vr : variant) (this : Evaluation V) (c : V) :
  well_formed vr this →
  mul_assign_scalar_ref vr (Separate c) this = mul_assign_scalar vr c this
  ∧ value (mul_assign_scalar_ref vr ValueOfThis this)
    = Vmul (value this) (value this)
  ∧ ∀ i : Z, (0 ≤ i < Z.of_nat (size vr))%Z →
      ∃ d, derivative vr this i = Returns d
           ∧ derivative vr (mul_assign_scalar_ref vr ValueOfThis this) i
             = Returns (Vmul d (Vmul (value this) (value this)))
           ∧ derivative vr (op_mul_scalar junk vr this (value this)) i
             = Returns (Vmul d (value this)).
Proof.
  intros Hwf. pose proof Hwf as Hlen. unfold well_formed, length_ in Hlen.
  destruct (slots_mul_assign_scalar_self vr this (well_formed_pos _ _ Hwf))
    as (_ & Hval & Hder).
  split; [done|]. split; [exact Hval|].
  intros i Hi. eexists. rewrite !derivative_in_range by done.
  split; [done|]. split.
  - f_equal. rewrite Hder by lia. by rewrite decide_True by lia.
  - f_equal. unfold op_mul_scalar. rewrite slots_Evaluation_copy by done.
    destruct (slots_mul_assign_scalar vr (value this) this) as [_ Hmul].
    rewrite Hmul. by rewrite decide_True by lia.
Qed.

(** X7. Unary minus returns a new object with the value and every
    derivative negated; the result has [size + 1] slots whatever the
    operand. *)
Theorem negation_negates_all {V : Type} `{Scalar V} (vr : variant)
    (this : Evaluation V) :
  well_formed vr (op_neg vr this)
  ∧ value (op_neg vr this) = Vneg (value this)
  ∧ ∀ i : Z, (0 ≤ i < Z.of_nat (size vr))%Z →
      ∃ d, derivative vr this i = Returns d
           ∧ derivative vr (op_neg vr this) i = Returns (Vneg d).
Proof.
  destruct (slots_op_neg vr this) as [Hlen Hat].
  split; [exact Hlen|]. split.
  - unfold value, valuepos_. apply Hat. unfold length_. lia.
  - intros i Hi. eexists. rewrite !derivative_in_range by done.
    split; [done|]. f_equal. apply Hat. unfold length_. lia.
Qed.

(** X8. [copyDerivatives(other)] keeps the value of [*this] and takes
    every derivative of [other]; with [other] being [*this] nothing
    changes. *)
Theorem copyDerivatives_keeps_value {V : Type} `{Scalar V} (vr : variant)
    (this : Evaluation V) (other : operand V) :
  well_formed vr this →
  value (copyDerivatives vr other this) = value this
  ∧ (∀ i : Z, derivative vr (copyDerivatives vr other this) i
              = derivative vr (deref this other) i)
  ∧ copyDerivatives vr This this = this.
Proof.
  intros Hwf. pose proof Hwf as Hlen. unfold well_formed, length_ in Hlen.
  split; [|split].
  - destruct (slots_copyDerivatives vr other this) as [_ Hat].
    unfold value, valuepos_. rewrite Hat. by rewrite decide_False by lia.
  - intros i. apply derivative_ext. intros Hi.
    destruct (slots_copyDerivatives vr other this) as [_ Hat].
    rewrite Hat, decide_True by lia. by rewrite at_deref.
  - destruct (slots_copyDerivatives vr This this) as [Hl Hat].
    apply Evaluation_ext; [done|]. intros j Hj. rewrite Hat.
    by case_decide.
Qed.

(** X9. Copy assignment makes [*this] the object assigned, and
    assigning an object to itself leaves it as it is. *)
Theorem copy_assignment_copies {V : Type} `{Scalar V} (vr : variant)
    (this other : Evaluation V) :
  well_formed vr this → well_formed vr other →
  assign vr (Obj other) this = other ∧ assign vr This this = this.
Proof.
  unfold well_formed, length_. intros Hthis Hother.
  split; apply Evaluation_ext.
  - destruct (slots_assign vr (Obj other) this) as [Hl _]. by rewrite Hl, Hthis.
  - intros j Hj. destruct (slots_assign vr (Obj other) this) as [Hl Hat].
    rewrite Hl in Hj. rewrite Hat, decide_True by lia. done.
  - by destruct (slots_assign vr This this) as [Hl _].
  - intros j Hj. destruct (slots_assign vr This this) as [Hl Hat].
    rewrite Hat. by case_decide.
Qed.

(** X10. [setDerivative] and [derivative]: for an index in [0, size) the
    derivative written is the derivative read back, the value and the
    other derivatives stay, and the object keeps its [size + 1] slots; for
    any other index both functions stop at their assertion. *)
Theorem setDerivative_then_derivative {V : Type} `{Scalar V} (vr : variant)
    (this : Evaluation V) (k : Z) (d : V) :
  well_formed vr this →
  ((0 ≤ k < Z.of_nat (size vr))%Z →
   ∃ e, setDerivative vr k d this = Returns e
        ∧ well_formed vr e
        ∧ derivative vr e k = Returns d
        ∧ value e = value this
        ∧ ∀ j : Z, j ≠ k → derivative vr e j = derivative vr this j)
  ∧ (¬ (0 ≤ k < Z.of_nat (size vr))%Z →
     setDerivative vr k d this = AssertionFailure
     ∧ derivative vr this k = AssertionFailure).
Proof.
  intros Hwf. pose proof Hwf as Hlen. unfold well_formed, length_ in Hlen.
  unfold setDerivative. split; intros Hk.
  - rewrite bool_decide_eq_true_2 by lia.
    replace (Z.to_nat (Z.of_nat dstart_ + k)) with (Z.to_nat k + 1)
      by (unfold dstart_; lia).
    eexists. split; [done|]. split; [|split; [|split]].
    + unfold well_formed. by rewrite length_store.
    + rewrite derivative_in_range by done. f_equal. apply at_store_eq. lia.
    + unfold value, valuepos_. apply at_store_ne. lia.
    + intros j Hj. apply derivative_ext. intros Hi. apply at_store_ne. lia.
  - rewrite bool_decide_eq_false_2 by lia. split; [done|].
    by apply derivative_out_of_range.
Qed.

(** X11. [setValue] and [value]: the value written is the value read
    back, and no derivative changes. *)
Theorem setValue_then_value {V : Type} `{Scalar V} (vr : variant)
    (this : Evaluation V) (c : V) :
  well_formed vr this →
  value (setValue c this) = c
  ∧ well_formed vr (setValue c this)
  ∧ ∀ i : Z, derivative vr (setValue c this) i = derivative vr this i.
Proof.
  intros Hwf. pose proof (well_formed_pos _ _ Hwf) as Hpos.
  unfold setValue, value, valuepos_. split; [by apply at_store_eq|]. split.
  - unfold well_formed. by rewrite length_store.
  - intros i. apply derivative_ext. intros Hi. apply at_store_ne. lia.
Qed.

(** X12. [a == b] between Evaluations is true exactly when the values
    and every derivative pass the scalar [!=] test as not different; so
    [a == a] holds exactly when every slot of [a] compares equal to itself;
    [a != b] is the negation. *)
Theorem equality_compares_every_slot {V : Type} `{Scalar V} (vr : variant)
    (a b : Evaluation V) :
  (op_eq vr a b = true
   ↔ Vneb (value a) (value b) = false
     ∧ ∀ i : Z, (0 ≤ i < Z.of_nat (size vr))%Z →
         ∃ da db, derivative vr a i = Returns da ∧ derivative vr b i = Returns db
                  ∧ Vneb da db = false)
  ∧ (op_eq vr a a = true
     ↔ Veqb (value a) (value a) = true
       ∧ ∀ i : Z, (0 ≤ i < Z.of_nat (size vr))%Z →
           ∃ da, derivative vr a i = Returns da ∧ Veqb da da = true)
  ∧ op_ne vr a b = negb (op_eq vr a b).
Proof.
  assert (∀ x y : Evaluation V,
    op_eq vr x y = true
    ↔ Vneb (value x) (value y) = false
      ∧ ∀ i : Z, (0 ≤ i < Z.of_nat (size vr))%Z →
          ∃ dx dy, derivative vr x i = Returns dx ∧ derivative vr y i = Returns dy
                   ∧ Vneb dx dy = false) as Hchar.
  { intros x y. rewrite op_eq_true. unfold length_. split.
    - intros Hall. split; [apply (Hall 0); lia|].
      intros i Hi. eexists _, _. rewrite !derivative_in_range by done.
      split; [done|]. split; [done|]. apply Hall. lia.
    - intros [Hval Hder] j Hj. destruct (decide (j = 0)) as [->|Hne]; [done|].
      destruct (Hder (Z.of_nat (j - 1))) as (dx & dy & Hx & Hy & Hxy); [lia|].
      rewrite derivative_in_range in Hx, Hy by lia.
      replace (Z.to_nat (Z.of_nat (j - 1)) + 1) with j in Hx, Hy by lia.
      injection Hx as <-. injection Hy as <-. done. }
  split; [apply Hchar|]. split; [|done].
  rewrite Hchar. unfold Vneb. rewrite negb_false_iff.
  split; intros [Hval Hder]; (split; [done|]); intros i Hi.
  - destruct (Hder i Hi) as (da & db & Ha & Hb & Hab).
    rewrite Ha in Hb. injection Hb as <-.
    exists da. split; [done|]. by apply negb_false_iff.
  - destruct (Hder i Hi) as (da & Ha & Haa).
    exists da, da. split; [done|]. split; [done|]. by apply negb_false_iff.
Qed.

(** X13. On doubles, an Evaluation whose value or one of whose
    derivatives is a NaN is not [==] to itself, and [!=] to itself. *)
Theorem nan_evaluation_differs_from_itself (vr : variant) (a : Evaluation float) :
  (value a = nan
   ∨ ∃ i : Z, derivative vr a i = Returns nan) →
  op_eq vr a a = false ∧ op_ne vr a a = true.
Proof.
  intros Hnan.
  assert (op_eq vr a a = false) as Heq.
  { destruct Hnan as [Hval|[i Hder]].
    - apply op_eq_false with 0; [unfold length_; lia|].
      unfold value, valuepos_ in Hval. by rewrite Hval.
    - unfold derivative in Hder. case_bool_decide as Hi; [|done].
      injection Hder as Hder.
      apply op_eq_false with (Z.to_nat (Z.of_nat dstart_ + i)).
      + unfold length_, dstart_. lia.
      + by rewrite Hder. }
  split; [done|]. unfold op_ne. by rewrite Heq.
Qed.

(** X14. Every member function that modifies an Evaluation, and every
    operator that returns one, keeps the [size + 1] slots of the class. *)
Theorem members_keep_well_formed {V : Type} `{Scalar V} (junk : nat → V)
    (vr : variant) (this y : Evaluation V) (other : operand V) (c : V) :
  well_formed vr this →
  (well_formed vr (clearDerivatives vr this)
   ∧ well_formed vr (copyDerivatives vr other this)
   ∧ well_formed vr (assign vr other this)
   ∧ well_formed vr (assign_scalar vr c this))
  ∧ (well_formed vr (add_assign vr other this)
     ∧ well_formed vr (add_assign_scalar c this)
     ∧ well_formed vr (sub_assign vr other this)
     ∧ well_formed vr (sub_assign_scalar c this)
     ∧ well_formed vr (mul_assign vr other this)
     ∧ well_formed vr (mul_assign_scalar vr c this)
     ∧ well_formed vr (div_assign vr other this)
     ∧ well_formed vr (div_assign_scalar vr c this))
  ∧ (well_formed vr (op_add junk vr this y)
     ∧ well_formed vr (op_sub junk vr this y)
     ∧ well_formed vr (op_mul junk vr this y)
     ∧ well_formed vr (op_div junk vr this y)
     ∧ well_formed vr (op_neg vr y)
     ∧ well_formed vr (divide vr c y)
     ∧ well_formed vr (scalar_sub junk vr c y)).
Proof.
  intros Hwf. pose proof (well_formed_pos _ _ Hwf) as Hpos.
  unfold op_add, op_sub, op_mul, op_div, scalar_sub.
  rewrite !slots_Evaluation_copy by done.
  unfold well_formed in *.
  assert (∀ o, length (data_ (mul_assign vr o this)) = length (data_ this)) as Hmul.
  { intros o. by destruct (slots_mul_assign vr o this Hpos) as [-> _]. }
  assert (∀ o, length (data_ (div_assign vr o this)) = length (data_ this)) as Hdiv.
  { intros o. by destruct (slots_div_assign vr o this Hpos) as [-> _]. }
  repeat split.
  - by rewrite (proj1 (slots_clearDerivatives vr this)).
  - by rewrite (proj1 (slots_copyDerivatives vr other this)).
  - by rewrite (proj1 (slots_assign vr other this)).
  - unfold assign_scalar. rewrite (proj1 (slots_clearDerivatives vr _)).
    by rewrite length_setValue.
  - by rewrite (proj1 (slots_add_assign vr other this)).
  - unfold add_assign_scalar. by rewrite length_store.
  - by rewrite (proj1 (slots_sub_assign vr other this)).
  - unfold sub_assign_scalar. by rewrite length_store.
  - by rewrite Hmul.
  - by rewrite (proj1 (slots_mul_assign_scalar vr c this)).
  - by rewrite Hdiv.
  - by rewrite (proj1 (slots_div_assign_scalar vr c this)).
  - by rewrite (proj1 (slots_add_assign vr (Obj y) this)).
  - by rewrite (proj1 (slots_sub_assign vr (Obj y) this)).
  - by rewrite Hmul.
  - by rewrite Hdiv.
  - apply slots_op_neg.
  - apply slots_divide.
  - rewrite (proj1 (slots_sub_assign vr (Obj y) _)).
    apply slots_Evaluation_constant.
Qed.

(** X15. [clearDerivatives] keeps the value, sets every derivative to 0,
    and clearing twice is clearing once. *)
Theorem clearDerivatives_zeroes {V : Type} `{Scalar V} (vr : variant)
    (this : Evaluation V) :
  well_formed vr this →
  value (clearDerivatives vr this) = value this
  ∧ (∀ i : Z, (0 ≤ i < Z.of_nat (size vr))%Z →
       derivative vr (clearDerivatives vr this) i = Returns Vzero)
  ∧ clearDerivatives vr (clearDerivatives vr this) = clearDerivatives vr this.
Proof.
  intros Hwf. pose proof Hwf as Hlen. unfold well_formed, length_ in Hlen.
  destruct (slots_clearDerivatives vr this) as [Hl Hat].
  split; [|split].
  - unfold value, valuepos_. rewrite Hat. by rewrite decide_False by lia.
  - intros i Hi. rewrite derivative_in_range by done. f_equal.
    rewrite Hat. by rewrite decide_True by lia.
  - destruct (slots_clearDerivatives vr (clearDerivatives vr this)) as [Hl' Hat'].
    apply Evaluation_ext; [done|]. intros j Hj.
    rewrite Hat', Hl, Hat. by repeat case_decide.
Qed.

(** X16. [x == c] with a scalar [c] looks at the value only: it can be
    true while [x == Evaluation(c)] is false, which is the case whenever
    the values compare equal and some derivative of [x] differs from 0. *)
Theorem scalar_equality_ignores_derivatives {V : Type} `{Scalar V}
    (junk : nat → V) (vr : variant) (x : Evaluation V) (c : V) :
  Veqb (value x) c = true →
  (∃ (i : Z) (d : V), derivative vr x i = Returns d ∧ Vneb d Vzero = true) →
  op_eq_scalar x c = true
  ∧ op_eq vr x (createConstant junk vr c) = false.
Proof.
  intros Hval (i & d & Hd & Hne). split; [done|].
  unfold derivative in Hd. case_bool_decide as Hi; [|done]. injection Hd as <-.
  apply op_eq_false with (Z.to_nat (Z.of_nat dstart_ + i)).
  - unfold length_, dstart_. lia.
  - unfold createConstant.
    destruct (slots_Evaluation_constant junk vr c) as [_ Hat].
    rewrite Hat by (unfold length_, dstart_; lia).
    rewrite decide_False by (unfold dstart_; lia). done.
Qed.

(** X17. [print] never stops at the assertion of [derivative]: it writes
    ["v: "], the value, [" / d:"] and then, for each index of [0, size) in
    order, a blank and that derivative. *)
Theorem print_writes_value_then_derivatives {V : Type} `{Scalar V}
    (show : V → string) (vr : variant) (this : Evaluation V) (os : list string) :
  ∃ ds : list V,
    length ds = size vr
    ∧ (∀ (i : nat) (d : V), ds !! i = Some d →
         derivative vr this (Z.of_nat i) = Returns d)
    ∧ Evaluation_print show vr this os
      = Returns (os ++ ["v: "; show (value this); " / d:"]
                 ++ concat ((λ d, [" "; show d]) <$> ds)).
Proof.
  exists ((λ i, at_ this (i + 1)) <$> seq 0 (size vr)).
  split; [by rewrite length_fmap, length_seq|]. split.
  - intros i d Hd. rewrite list_lookup_fmap in Hd.
    destruct (seq 0 (size vr) !! i) as [i'|] eqn:Hi; [|done].
    apply lookup_seq in Hi as [-> Hlt]. injection Hd as <-.
    rewrite derivative_in_range by lia. do 2 f_equal. lia.
  - unfold Evaluation_print. rewrite for_loop_unrolled. unfold range.
    rewrite Nat.sub_0_r.
    rewrite (app_assoc os).
    generalize (os ++ ["v: "; show (value this); " / d:"]). intros os0.
    assert (∀ n, n ≤ size vr →
      unrolled (seq 0 n)
        (λ varIdx os1,
           match os1 with
           | Returns os2 =>
               match derivative vr this (Z.of_nat varIdx) with
               | Returns d => Returns (os2 ++ [" "; show d])
               | AssertionFailure => AssertionFailure
               end
           | AssertionFailure => AssertionFailure
           end) (Returns os0)
      = Returns (os0 ++ concat ((λ d, [" "; show d])
                                <$> ((λ i, at_ this (i + 1)) <$> seq 0 n)))) as Hn.
    { induction n as [|n IH]; intros Hle.
      - simpl. by rewrite app_nil_r.
      - rewrite seq_S, unrolled_snoc, IH by lia. simpl.
        rewrite derivative_in_range by lia. rewrite Nat2Z.id.
        rewrite !fmap_app, concat_app. simpl. by rewrite <-app_assoc. }
    by rewrite Hn.
Qed.

(** X18. On doubles nothing checks a division by an Evaluation of value
    [+0.0]: [divide(1, x)] has value [+infinity], a derivative of [x] that
    is [+0.0] gives a NaN derivative, and [this / x] has the value of
    [this] times [+infinity]. *)
Theorem division_by_zero_is_not_checked (junk : nat → float) (vr : variant)
    (this x : Evaluation float) :
  well_formed vr this →
  value x = 0%float →
  value (divide vr 1%float x) = infinity
  ∧ (∀ i : Z, derivative vr x i = Returns 0%float →
       derivative vr (divide vr 1%float x) i = Returns nan)
  ∧ value (op_div junk vr this x) = (value this * infinity)%float.
Proof.
  intros Hwf Hzero.
  destruct (slots_divide vr 1%float x) as (_ & Hval & Hder).
  split; [|split].
  - unfold value, valuepos_. rewrite Hval.
    change (Vone (V:=float)) with 1%float. rewrite Hzero. reflexivity.
  - intros i Hi. unfold derivative in Hi |- *.
    case_bool_decide as Hrange; [|done]. injection Hi as Hi. f_equal.
    rewrite Hder by (unfold dstart_; lia). rewrite Hi, Hzero. reflexivity.
  - unfold op_div. rewrite slots_Evaluation_copy by done.
    destruct (slots_div_assign vr (Obj x) this (well_formed_pos _ _ Hwf))
      as (_ & Hdiv & _).
    unfold value at 1, valuepos_. rewrite Hdiv. simpl deref. rewrite Hzero.
    reflexivity.
Qed.

(** * Further properties of the generator *)



(** X21. A completed run with bound [m] has printed the line for the
    generic class and then one line per [N = 1 .. m] in ascending order;
    the files present afterwards are those present before and the
    generated ones, and when no file was present before there are exactly
    [m + 2] files afterwards ([2] for [m < 0]). *)
Theorem run_prints_and_creates (python_int : string → option Z)
    (basename : string → string) (render_specialization : Z → string → string)
    (can_open : string → bool)
    (argv0 : string) (args : list string) (fs : gmap string string)
    (st : process) (m : Z) :
  main python_int basename render_specialization can_open argv0 args fs
    = Completed st →
  read_maxDerivs python_int (argv0 :: args) = Some m →
  stdout st = "Generating generic template class" :: (progress_line <$> seqZ 1 m)
  ∧ length (stdout st) = 1 + Z.to_nat m
  ∧ dom (files st)
    = list_to_set (generated_files render_specialization m (basename argv0)).*1 ∪ dom fs
  ∧ (fs = ∅ → base.size (files st) = Z.to_nat m + 2).
Proof.
  intros Hrun Hm.
  apply main_completed_inv in Hrun as (m' & Hread & _ & ->).
  rewrite Hm in Hread. injection Hread as <-.
  set (out := generated_files render_specialization m (basename argv0)).
  unfold completed_state. cbn [stdout files]. fold out.
  split; [done|]. split; [|split].
  - simpl. by rewrite length_fmap, length_seqZ.
  - rewrite dom_union_L. f_equal. apply dom_list_to_map_L.
  - intros ->. rewrite (right_id_L ∅ (∪)).
    rewrite map_size_list_to_map by apply generated_files_NoDup.
    unfold out, generated_files. rewrite !length_app, length_fmap, length_seqZ.
    simpl. lia.
Qed.


(** ** The further properties at sample inputs *)

Lemma copy_constructor_copies_witness :
  well_formed (Specialization 2) sample_w
  ∧ Evaluation_copy sample_junk (Specialization 2) sample_w = sample_w.
Proof.
  split; [reflexivity|].
  exact (proj1 (copy_constructor_copies sample_junk (Specialization 2) sample_w eq_refl)).
Defined.

Lemma add_sub_assign_slotwise_witness :
  well_formed (Specialization 2) sample_u
  ∧ value (add_assign (Specialization 2) (Obj sample_v) sample_u) = 7%float
  ∧ value (sub_assign (Specialization 2) This sample_u) = 0%float.
Proof.
  split; [reflexivity|].
  pose proof (add_sub_assign_slotwise (Specialization 2) sample_u (Obj sample_v) eq_refl)
    as [[Hadd _] _].
  pose proof (add_sub_assign_slotwise (Specialization 2) sample_u This eq_refl)
    as [_ [Hsub _]].
  split; [exact Hadd|exact Hsub].
Defined.

Lemma scalar_add_sub_keep_derivatives_witness :
  well_formed (Generic 2) sample_w
  ∧ value (op_add_scalar sample_junk (Generic 2) sample_w 1%float) = 3%float
  ∧ derivative (Generic 2) (op_add_scalar sample_junk (Generic 2) sample_w 1%float) 1
    = Returns 5%float.
Proof.
  split; [reflexivity|].
  destruct (scalar_add_sub_keep_derivatives sample_junk (Generic 2) sample_w 1%float eq_refl)
    as [(_ & _ & Hvalue & _) Hder].
  split; [exact Hvalue|]. destruct (Hder 1%Z) as (_ & _ & Hadd & _). exact Hadd.
Defined.

Lemma scalar_mul_div_scale_all_witness :
  well_formed (Specialization 2) sample_w
  ∧ value (mul_assign_scalar_ref (Specialization 2) (Separate 4%float) sample_w) = 8%float
  ∧ value (div_assign_scalar (Specialization 2) 4%float sample_w) = 0.5%float
  ∧ mul_assign_scalar_ref (Specialization 2) (DerivativeOfThis 0) sample_w
    = mkEvaluation [6; 9; 45]%float
  ∧ ∃ d, derivative (Specialization 2) sample_w 1 = Returns d
         ∧ derivative (Specialization 2)
             (mul_assign_scalar_ref (Specialization 2) (DerivativeOfThis 0) sample_w) 1
           = Returns (d * (3 * 3))%float.
Proof.
  split; [reflexivity|].
  destruct (scalar_mul_div_scale_all sample_junk (Specialization 2) sample_w 4%float eq_refl)
    as [[(Hmul & _ & Hdiv & _) _] Halias].
  split; [exact Hmul|]. split; [exact Hdiv|]. split; [reflexivity|].
  destruct (Halias 0 ltac:(simpl; lia)) as (dk & Hdk & _ & Hder).
  injection Hdk as <-.
  exact (Hder 1 ltac:(simpl; lia)).
Defined.

Lemma mul_assign_scalar_reads_updated_value_witness :
  well_formed (Specialization 2) sample_w
  ∧ value (mul_assign_scalar_ref (Specialization 2) ValueOfThis sample_w) = 4%float
  ∧ ∃ d, derivative (Specialization 2) sample_w 0 = Returns d
         ∧ derivative (Specialization 2)
             (mul_assign_scalar_ref (Specialization 2) ValueOfThis sample_w) 0
           = Returns (d * 4)%float
         ∧ derivative (Specialization 2)
             (op_mul_scalar sample_junk (Specialization 2) sample_w (value sample_w)) 0
           = Returns (d * 2)%float.
Proof.
  split; [reflexivity|].
  destruct (mul_assign_scalar_reads_updated_value sample_junk (Specialization 2)
              sample_w 1%float eq_refl) as (_ & Hvalue & Hder).
  split; [exact Hvalue|]. apply Hder. simpl. lia.
Defined.

Lemma copyDerivatives_keeps_value_witness :
  well_formed (Specialization 2) sample_u
  ∧ value (copyDerivatives (Specialization 2) (Obj sample_v) sample_u) = 3%float
  ∧ derivative (Specialization 2)
      (copyDerivatives (Specialization 2) (Obj sample_v) sample_u) 1
    = Returns 1%float.
Proof.
  split; [reflexivity|].
  destruct (copyDerivatives_keeps_value (Specialization 2) sample_u (Obj sample_v) eq_refl)
    as (Hvalue & Hder & _).
  split; [exact Hvalue|]. exact (Hder 1%Z).
Defined.

Lemma copy_assignment_copies_witness :
  well_formed (Specialization 2) sample_u ∧ well_formed (Specialization 2) sample_v
  ∧ assign (Specialization 2) (Obj sample_v) sample_u = sample_v.
Proof.
  split; [reflexivity|]. split; [reflexivity|].
  exact (proj1 (copy_assignment_copies (Specialization 2) sample_u sample_v
                  eq_refl eq_refl)).
Defined.

Lemma setDerivative_then_derivative_witness :
  well_formed (Specialization 2) sample_w
  ∧ (∃ e, setDerivative (Specialization 2) 1 9%float sample_w = Returns e
          ∧ derivative (Specialization 2) e 1 = Returns 9%float)
  ∧ setDerivative (Specialization 2) 2 9%float sample_w = AssertionFailure
  ∧ derivative (Specialization 2) sample_w (-1) = AssertionFailure.
Proof.
  split; [reflexivity|].
  destruct (setDerivative_then_derivative (Specialization 2) sample_w 1 9%float eq_refl)
    as [Hin _].
  destruct (setDerivative_then_derivative (Specialization 2) sample_w 2 9%float eq_refl)
    as [_ Hhigh].
  destruct (setDerivative_then_derivative (Specialization 2) sample_w (-1) 9%float eq_refl)
    as [_ Hlow].
  split; [|split].
  - destruct (Hin ltac:(simpl; lia)) as (e & Hset & _ & Hget & _).
    exists e. split; [exact Hset|exact Hget].
  - apply Hhigh. simpl. lia.
  - apply Hlow. simpl. lia.
Defined.

Lemma setValue_then_value_witness :
  well_formed (Generic 2) sample_w
  ∧ value (setValue 7%float sample_w) = 7%float
  ∧ derivative (Generic 2) (setValue 7%float sample_w) 0 = Returns 3%float.
Proof.
  split; [reflexivity|].
  destruct (setValue_then_value (Generic 2) sample_w 7%float eq_refl)
    as (Hvalue & _ & Hder).
  split; [exact Hvalue|]. exact (Hder 0%Z).
Defined.

Lemma nan_evaluation_differs_from_itself_witness :
  derivative (Specialization 2) sample_nan 0 = Returns nan
  ∧ op_eq (Specialization 2) sample_nan sample_nan = false
  ∧ op_ne (Specialization 2) sample_nan sample_nan = true.
Proof.
  split; [reflexivity|].
  apply (nan_evaluation_differs_from_itself (Specialization 2) sample_nan).
  right. exists 0%Z. reflexivity.
Defined.

Lemma members_keep_well_formed_witness :
  well_formed (Specialization 2) sample_u
  ∧ well_formed (Specialization 2) (div_assign (Specialization 2) This sample_u)
  ∧ well_formed (Specialization 2)
      (op_mul sample_junk (Specialization 2) sample_u sample_v).
Proof.
  split; [reflexivity|].
  destruct (members_keep_well_formed sample_junk (Specialization 2) sample_u sample_v
              This 1%float eq_refl)
    as (_ & (_ & _ & _ & _ & _ & _ & Hdiv & _) & (_ & _ & Hmul & _)).
  split; [exact Hdiv|exact Hmul].
Defined.

Lemma clearDerivatives_zeroes_witness :
  well_formed (Specialization 2) sample_w
  ∧ value (clearDerivatives (Specialization 2) sample_w) = 2%float
  ∧ derivative (Specialization 2) (clearDerivatives (Specialization 2) sample_w) 1
    = Returns 0%float.
Proof.
  split; [reflexivity|].
  destruct (clearDerivatives_zeroes (Specialization 2) sample_w eq_refl)
    as (Hvalue & Hder & _).
  split; [exact Hvalue|]. apply Hder. simpl. lia.
Defined.

Lemma scalar_equality_ignores_derivatives_witness :
  Veqb (value sample_w) 2%float = true
  ∧ op_eq_scalar sample_w 2%float = true
  ∧ op_eq (Specialization 2) sample_w
      (createConstant sample_junk (Specialization 2) 2%float) = false.
Proof.
  split; [reflexivity|].
  destruct (scalar_equality_ignores_derivatives sample_junk (Specialization 2)
              sample_w 2%float) as [Hscalar Hobject].
  - reflexivity.
  - exists 0%Z, 3%float. split; reflexivity.
  - split; [exact Hscalar|exact Hobject].
Defined.

Lemma division_by_zero_is_not_checked_witness :
  well_formed (Specialization 2) sample_u ∧ value sample_zero = 0%float
  ∧ value (divide (Specialization 2) 1%float sample_zero) = infinity
  ∧ derivative (Specialization 2) (divide (Specialization 2) 1%float sample_zero) 0
    = Returns nan.
Proof.
  split; [reflexivity|]. split; [reflexivity|].
  destruct (division_by_zero_is_not_checked sample_junk (Specialization 2)
              sample_u sample_zero eq_refl eq_refl) as (Hvalue & Hder & _).
  split; [exact Hvalue|]. apply Hder. reflexivity.
Defined.



Lemma run_prints_and_creates_witness :
  ∃ st, main sample_int id sample_render sample_open "gen.py" ["2"] ∅ = Completed st
        ∧ length (stdout st) = 3
        ∧ base.size (files st) = 4.
Proof.
  destruct (main sample_int id sample_render sample_open "gen.py" ["2"] ∅)
    as [st|e st] eqn:Hrun; [|discriminate Hrun].
  exists st. split; [reflexivity|].
  destruct (run_prints_and_creates sample_int id sample_render sample_open
              "gen.py" ["2"] ∅ st 2%Z Hrun eq_refl) as (_ & Hlines & _ & Hsize).
  split; [exact Hlines|]. exact (Hsize eq_refl).
Defined.

